(** * Spider Solitaire: a shallow embedding of the rules engine

    The engine lives in [src/gameLogic.ts] (deck construction, deal,
    sequence and move validation, move application, run removal, stock
    dealing, win check) and the hint search in [src/App.tsx].

    JavaScript numbers that are used as indices, counters and scores are
    integers here ([Z]); arrays are lists; reading an array out of range
    yields [undefined], modelled by [None]; reading a property of
    [undefined] raises a [TypeError], modelled by the [TypeError]
    constructor of [result]. *)

From Stdlib Require Import ZArith Lia.
From stdpp Require Import base tactics option list strings pretty.

Local Open Scope Z_scope.

(** ** Outcomes of a JavaScript computation *)

Inductive result (A : Type) : Type :=
| Ok (a : A)
| TypeError.
Arguments Ok {A} a.
Arguments TypeError {A}.

#[global] Instance result_ret : MRet result := fun _ a => Ok a.
#[global] Instance result_bind : MBind result := fun _ _ f m =>
  match m with
  | Ok a => f a
  | TypeError => TypeError
  end.

(** [arr.length] *)
Definition len {A} (arr : list A) : Z := Z.of_nat (length arr).

(** [arr[i]] for an integer [i]: [undefined] outside [0 .. length-1]. *)
Definition at_ {A} (arr : list A) (i : Z) : option A :=
  if decide (0 ≤ i) then arr !! Z.to_nat i else None.

(** [arr[i] = v] at an index that holds an element (every assignment of the
    engine follows a successful read of the same index); stdpp's insert
    leaves the list alone elsewhere. *)
Definition set_at {A} (arr : list A) (i : Z) (v : A) : list A :=
  if decide (0 ≤ i) then <[Z.to_nat i := v]> arr else arr.

(** [v.f]: a property read, a [TypeError] when [v] is [undefined]. *)
Definition field {A B} (f : A → B) (v : option A) : result B :=
  match v with
  | Some a => Ok (f a)
  | None => TypeError
  end.

(** [arr.splice(start)]: the kept prefix and the removed suffix. A negative
    [start] counts from the end, and [start] is clamped to the array. *)
Definition splice {A} (arr : list A) (start : Z) : list A * list A :=
  let s := if decide (start < 0) then Z.max (len arr + start) 0
           else Z.min start (len arr) in
  (take (Z.to_nat s) arr, drop (Z.to_nat s) arr).

(** [for (let i = from; i < from + n; i++) body(i)], where the body either
    returns from the enclosing function ([Some r]) or falls through to the
    next iteration ([None]). *)
Fixpoint for_loop {R} (n : nat) (i : Z) (body : Z → result (option R))
  : result (option R) :=
  match n with
  | O => Ok None
  | S n' =>
      r ← body i;
      match r with
      | Some x => Ok (Some x)
      | None => for_loop n' (i + 1) body
      end
  end.

(** [for (let i = from; i < to; i++) body(i)] *)
Definition for_range {R} (from to : Z) (body : Z → result (option R))
  : result (option R) :=
  for_loop (Z.to_nat (to - from)) from body.

(** ** Data model ([types.ts]) *)

Inductive Suit := Spades | Hearts | Diamonds | Clubs.
Inductive Rank := RA | R2 | R3 | R4 | R5 | R6 | R7 | R8 | R9 | R10 | RJ | RQ | RK.

#[global] Instance Suit_eq_dec : EqDecision Suit.
Proof. solve_decision. Defined.
#[global] Instance Rank_eq_dec : EqDecision Rank.
Proof. solve_decision. Defined.

Definition RANKS : list Rank :=
  [RA; R2; R3; R4; R5; R6; R7; R8; R9; R10; RJ; RQ; RK].

Definition RANK_VALUES (r : Rank) : Z :=
  match r with
  | RA => 1 | R2 => 2 | R3 => 3 | R4 => 4 | R5 => 5 | R6 => 6 | R7 => 7
  | R8 => 8 | R9 => 9 | R10 => 10 | RJ => 11 | RQ => 12 | RK => 13
  end.

Definition suit_text (s : Suit) : string :=
  match s with
  | Spades => "♠" | Hearts => "♥" | Diamonds => "♦" | Clubs => "♣"
  end.

Definition rank_text (r : Rank) : string :=
  match r with
  | RA => "A" | R2 => "2" | R3 => "3" | R4 => "4" | R5 => "5" | R6 => "6"
  | R7 => "7" | R8 => "8" | R9 => "9" | R10 => "10" | RJ => "J" | RQ => "Q"
  | RK => "K"
  end.

Record Card := mkCard {
  id : string;
  suit : Suit;
  rank : Rank;
  faceUp : bool;
}.

#[global] Instance Card_eq_dec : EqDecision Card.
Proof. solve_decision. Defined.

(** [{ ...c, faceUp: b }] *)
Definition with_faceUp (c : Card) (b : bool) : Card :=
  {| id := id c; suit := suit c; rank := rank c; faceUp := b |}.

(** [c] with the suit [s] in place of its own. *)
Definition with_suit (c : Card) (s : Suit) : Card :=
  {| id := id c; suit := s; rank := rank c; faceUp := faceUp c |}.

(** [{ ...c, id: s }] *)
Definition with_id (c : Card) (s : string) : Card :=
  {| id := s; suit := suit c; rank := rank c; faceUp := faceUp c |}.

Inductive Difficulty := D1 | D2 | D4.

Record GameState := mkState {
  columns : list (list Card);
  stock : list (list Card);
  completedRuns : Z;
  score : Z;
  moves : Z;
  difficulty : Difficulty;
}.

(** ** Sequence validation and move legality ([gameLogic.ts]) *)

Definition getRankValue (r : Rank) : Z := RANK_VALUES r.

Definition isValidSequence (cards : list Card) (startIndex : Z) : result bool :=
  r ← for_range startIndex (len cards) (fun i =>
         up ← field faceUp (at_ cards i);
         if negb up then Ok (Some false) else
         if decide (startIndex < i) then
           s ← field suit (at_ cards i);
           s' ← field suit (at_ cards (i - 1));
           if decide (s ≠ s') then Ok (Some false) else
           r' ← field rank (at_ cards (i - 1));
           r ← field rank (at_ cards i);
           if decide (getRankValue r' - getRankValue r ≠ 1) then Ok (Some false)
           else Ok None
         else Ok None);
  Ok (default true r).

(** The column arguments are what [state.columns[idx]] evaluates to: an
    array, or [undefined] when [idx] is no index of [state.columns]. *)
Definition canMoveCards (sourceCol : option (list Card)) (startIndex : Z)
    (targetCol : option (list Card)) : result bool :=
  if decide (startIndex < 0) then Ok false else
  slen ← field len sourceCol;
  if decide (slen ≤ startIndex) then Ok false else
  valid ← from_option (fun src => isValidSequence src startIndex) TypeError sourceCol;
  if negb valid then Ok false else
  tlen ← field len targetCol;
  if decide (tlen = 0) then Ok true else
  let targetTopCard := targetCol ≫= (fun tgt => at_ tgt (tlen - 1)) in
  let movingBottomCard := sourceCol ≫= (fun src => at_ src startIndex) in
  up ← field faceUp targetTopCard;
  if negb up then Ok false else
  rt ← field rank targetTopCard;
  rb ← field rank movingBottomCard;
  Ok (bool_decide (getRankValue rt - getRankValue rb = 1)).

(** ** Completed runs *)

Record RunResult := mkRun {
  found : bool;
  startIndex : Z;
}.

Definition notFound : RunResult := {| found := false; startIndex := -1 |}.

Definition checkCompleteRun (column : list Card) : result RunResult :=
  if decide (len column < 13) then Ok notFound else
  let startIndex := len column - 13 in
  let bottomCard := at_ column (len column - 1) in
  rb ← field rank bottomCard;
  if decide (getRankValue rb ≠ 1) then Ok notFound else
  let topCard := at_ column startIndex in
  rt ← field rank topCard;
  if decide (getRankValue rt ≠ 13) then Ok notFound else
  valid ← isValidSequence column startIndex;
  if negb valid then Ok notFound else
  suit0 ← field suit bottomCard;
  r ← for_range startIndex (len column) (fun i =>
         s ← field suit (at_ column i);
         if decide (s ≠ suit0) then Ok (Some notFound) else Ok None);
  Ok (default {| found := true; startIndex := startIndex |} r).

(** The fragment shared by [moveCards] and [removeCompleteRuns]:
    [if (col.length > 0) { const topCard = col[col.length - 1];
       if (!topCard.faceUp) col[col.length - 1] = { ...topCard, faceUp: true }; }]
    The assignment is reached only after [topCard.faceUp] was read, so
    [topCard] is a card there. *)
Definition flipTop (col : list Card) : result (list Card) :=
  if decide (0 < len col) then
    let topCard := at_ col (len col - 1) in
    up ← field faceUp topCard;
    if negb up then
      Ok (from_option (fun t => set_at col (len col - 1) (with_faceUp t true)) col topCard)
    else Ok col
  else Ok col.

(** [a]: a value that is used as an array (spread, or a method call on it)
    and so must not be [undefined]. *)
Definition defined {A} (v : option A) : result A := field (fun a => a) v.

(** The loop of [removeCompleteRuns] over [colIdx], with the variables it
    updates: [newColumns], [completedRuns] and [score]; [n] iterations are
    left ([newColumns.length] does not change). *)
Fixpoint removeCompleteRuns_loop (n : nat) (colIdx : Z)
    (newColumns : list (list Card)) (completedRuns score : Z)
  : result (list (list Card) * Z * Z) :=
  match n with
  | O => Ok (newColumns, completedRuns, score)
  | S n' =>
      col ← defined (at_ newColumns colIdx);
      res ← checkCompleteRun col;
      if found res then
        let kept := (splice col (startIndex res)).1 in
        kept' ← flipTop kept;
        removeCompleteRuns_loop n' (colIdx + 1) (set_at newColumns colIdx kept')
          (completedRuns + 1) (score + 100)
      else
        removeCompleteRuns_loop n' (colIdx + 1) newColumns completedRuns score
  end.

Definition removeCompleteRuns (state : GameState) : result GameState :=
  let newColumns := columns state in
  '(newColumns, completedRuns, score) ←
    removeCompleteRuns_loop (length newColumns) 0 newColumns
      (completedRuns state) (score state);
  Ok {| columns := newColumns; stock := stock state;
        completedRuns := completedRuns; score := score;
        moves := moves state; difficulty := difficulty state |}.

(** ** Moves and deals *)

Definition moveCards (state : GameState)
    (sourceColIdx startIndex targetColIdx : Z) : result GameState :=
  if decide (sourceColIdx = targetColIdx) then Ok state else
  ok ← canMoveCards (at_ (columns state) sourceColIdx) startIndex
                    (at_ (columns state) targetColIdx);
  if negb ok then Ok state else
  let newColumns := columns state in
  srcCol ← defined (at_ newColumns sourceColIdx);
  let '(kept, movingCards) := splice srcCol startIndex in
  let newColumns := set_at newColumns sourceColIdx kept in
  tgtCol ← defined (at_ newColumns targetColIdx);
  let newColumns := set_at newColumns targetColIdx (tgtCol ++ movingCards) in
  srcCol' ← defined (at_ newColumns sourceColIdx);
  flipped ← flipTop srcCol';
  let newColumns := set_at newColumns sourceColIdx flipped in
  removeCompleteRuns
    {| columns := newColumns; stock := stock state;
       completedRuns := completedRuns state; score := score state - 1;
       moves := moves state + 1; difficulty := difficulty state |}.

(** [null] is [None]. [dealPile[idx]] is read only for [idx] below
    [dealPile.length], where it is a card. *)
Definition dealFromStock (state : GameState) : result (option GameState) :=
  if decide (len (stock state) = 0) then Ok None else
  let hasEmptyColumn :=
    existsb (fun col => bool_decide (len col = 0)) (columns state) in
  if hasEmptyColumn then Ok None else
  let newStock := take (length (stock state) - 1) (stock state) in
  dealPile ← defined (last (stock state));
  let newColumns :=
    imap (fun idx col =>
            if decide (Z.of_nat idx < len dealPile) then
              from_option (fun card => col ++ [with_faceUp card true]) col
                          (dealPile !! idx)
            else col) (columns state) in
  newState ← removeCompleteRuns
    {| columns := newColumns; stock := newStock;
       completedRuns := completedRuns state; score := score state;
       moves := moves state + 1; difficulty := difficulty state |};
  Ok (Some newState).

Definition isGameWon (state : GameState) : bool :=
  bool_decide (completedRuns state = 8).

(** ** Deck construction, shuffle and the initial deal *)

(** [`card-${idCounter}-${suit}-${rank}`] *)
Definition deck_card_id (idCounter : nat) (suit : Suit) (rank : Rank) : string :=
  ("card-" +:+ pretty idCounter +:+ "-" +:+ suit_text suit +:+ "-"
   +:+ rank_text rank)%string.

(** [`card-${i}-${idx}-${c.suit}-${c.rank}`] *)
Definition game_card_id (i idx : nat) (c : Card) : string :=
  ("card-" +:+ pretty i +:+ "-" +:+ pretty idx +:+ "-" +:+ suit_text (suit c)
   +:+ "-" +:+ rank_text (rank c))%string.

(** The two nested [for ... of] loops of [createDeck], threading the deck
    built so far and [idCounter]. *)
Definition createDeck (suits : list Suit) : list Card :=
  (foldl (fun '(deck, idCounter) suit =>
     foldl (fun '(deck, idCounter) rank =>
       (deck ++ [{| id := deck_card_id idCounter suit rank;
                    suit := suit; rank := rank; faceUp := false |}],
        (idCounter + 1)%nat))
       (deck, idCounter) RANKS)
     ([], 0%nat) suits).1.

(** [[arr[i], arr[j]] = [arr[j], arr[i]]] for two indices of [arr]. *)
Definition swap {T} (arr : list T) (i j : nat) : list T :=
  match arr !! i, arr !! j with
  | Some x, Some y => <[j := x]> (<[i := y]> arr)
  | _, _ => arr
  end.

Section Shuffle.

(** The random source: [rnd i] stands for the draw made at loop index [i].
    [Math.random()] lies in [0, 1), so [Math.floor(Math.random() * (i + 1))]
    ranges over [0 .. i]; it is [rnd i mod (i + 1)] here, which takes
    every such value as [rnd] varies. *)
Variable rnd : nat → nat.

(** [for (let i = ...; i > 0; i--)], entered with the loop variable [i]. *)
Fixpoint shuffle_loop {T} (i : nat) (arr : list T) : list T :=
  match i with
  | O => arr
  | S i' =>
      let j := (rnd i mod (i + 1))%nat in
      shuffle_loop i' (swap arr i j)
  end.

Definition shuffle {T} (array : list T) : list T :=
  shuffle_loop (length array - 1) array.

End Shuffle.

(** The inner loop of the column deal: [rows] are the values of [row] still
    to run. [None] stands for a read of [allCards] past its end, where the
    program would deal an object with no suit and no rank, which is not a
    [Card]. *)
Fixpoint deal_rows (allCards : list Card) (numCards : nat) (rows : list nat)
    (column : list Card) (cardIdx : nat) : option (list Card * nat) :=
  match rows with
  | [] => Some (column, cardIdx)
  | row :: rows' =>
      card ← allCards !! cardIdx;
      let card := if decide (row = (numCards - 1)%nat) then with_faceUp card true
                  else card in
      deal_rows allCards numCards rows' (column ++ [card]) (S cardIdx)
  end.

(** The outer loop: [cols] are the values of [col] still to run. *)
Fixpoint deal_columns (allCards : list Card) (cols : list nat)
    (columns : list (list Card)) (cardIdx : nat)
  : option (list (list Card) * nat) :=
  match cols with
  | [] => Some (columns, cardIdx)
  | col :: cols' =>
      let numCards := if decide (col < 4)%nat then 6%nat else 5%nat in
      '(column, cardIdx) ← deal_rows allCards numCards (seq 0 numCards) [] cardIdx;
      deal_columns allCards cols' (columns ++ [column]) cardIdx
  end.

(** [for (let i = 0; i < 10 && cardIdx < allCards.length; i++)], with [n]
    values of [i] left. *)
Fixpoint deal_pile (allCards : list Card) (n : nat) (pile : list Card)
    (cardIdx : nat) : option (list Card * nat) :=
  match n with
  | O => Some (pile, cardIdx)
  | S n' =>
      if decide (cardIdx < length allCards)%nat then
        card ← allCards !! cardIdx;
        deal_pile allCards n' (pile ++ [card]) (S cardIdx)
      else Some (pile, cardIdx)
  end.

(** [while (cardIdx < allCards.length)]. Every round reads at least one
    card, so [length allCards] rounds are enough; [None] also stands for
    running out of them. *)
Fixpoint deal_stock (allCards : list Card) (fuel : nat)
    (stock : list (list Card)) (cardIdx : nat) : option (list (list Card)) :=
  if decide (cardIdx < length allCards)%nat then
    match fuel with
    | O => None
    | S fuel' =>
        '(pile, cardIdx) ← deal_pile allCards 10 [] cardIdx;
        deal_stock allCards fuel' (stock ++ [pile]) cardIdx
    end
  else Some stock.

Definition createGame (rnd : nat → nat) (difficulty : Difficulty)
  : option GameState :=
  let suits :=
    match difficulty with
    | D1 => [Spades]
    | D2 => [Spades; Hearts]
    | D4 => [Spades; Hearts; Diamonds; Clubs]
    end in
  let repeats := (8 / length suits)%nat in
  let allCards :=
    foldl (fun allCards i =>
             allCards ++
             imap (fun idx c => with_id c (game_card_id i idx c))
                  (createDeck suits))
          [] (seq 0 repeats) in
  let allCards := shuffle rnd allCards in
  '(columns, cardIdx) ← deal_columns allCards (seq 0 10) [] 0%nat;
  stock ← deal_stock allCards (length allCards) [] cardIdx;
  Some {| columns := columns; stock := stock; completedRuns := 0%Z;
          score := 500%Z; moves := 0%Z; difficulty := difficulty |}.

(** ** Hint search ([findHint] in [App.tsx])

    The callback reports through [setSelectedCard] and [setHint]; the value
    below is what it reports: the loop variables [srcCol], [cardIdx] and
    [tgtCol] at the [return] (the selected card is [(srcCol, cardIdx)], the
    message names the columns [srcCol + 1] and [tgtCol + 1] and says
    whether the move is a same-suit one), or one of the two closing
    messages. *)

Inductive Hint :=
| HintSameSuit (srcCol cardIdx tgtCol : Z)
| HintAnyMove (srcCol cardIdx tgtCol : Z)
| HintDeal
| HintNoMoves.

#[global] Instance Hint_eq_dec : EqDecision Hint.
Proof. solve_decision. Defined.

(** The body of the innermost loop of the first search. *)
Definition sameSuitTarget (cols : list (list Card)) (srcCol : Z)
    (col : list Card) (cardIdx tgtCol : Z) : result (option Hint) :=
  if decide (tgtCol = srcCol) then Ok None else
  tlen ← field len (at_ cols tgtCol);
  if decide (tlen = 0) then Ok None else
  ok ← canMoveCards (Some col) cardIdx (at_ cols tgtCol);
  if (ok : bool) then
    let tgtTop := at_ cols tgtCol ≫= (fun t => at_ t (tlen - 1)) in
    ts ← field suit tgtTop;
    cs ← field suit (at_ col cardIdx);
    if decide (ts = cs) then Ok (Some (HintSameSuit srcCol cardIdx tgtCol))
    else Ok None
  else Ok None.

(** The body of the innermost loop of the second search. *)
Definition anyTarget (cols : list (list Card)) (srcCol : Z)
    (col : list Card) (cardIdx tgtCol : Z) : result (option Hint) :=
  if decide (tgtCol = srcCol) then Ok None else
  ok ← canMoveCards (Some col) cardIdx (at_ cols tgtCol);
  if (ok : bool) then
    tlen ← field len (at_ cols tgtCol);
    if decide (0 < tlen) then Ok (Some (HintAnyMove srcCol cardIdx tgtCol))
    else Ok None
  else Ok None.

(** The two outer loops, which both searches share word for word. *)
Definition searchMoves (cols : list (list Card))
    (target : Z → list Card → Z → Z → result (option Hint))
  : result (option Hint) :=
  for_range 0 (len cols) (fun srcCol =>
    col ← defined (at_ cols srcCol);
    for_range 0 (len col) (fun cardIdx =>
      up ← field faceUp (at_ col cardIdx);
      if negb up then Ok None else
      valid ← isValidSequence col cardIdx;
      if negb valid then Ok None else
      for_range 0 (len cols) (target srcCol col cardIdx))).

Definition findHint (gameState : GameState) : result Hint :=
  r ← searchMoves (columns gameState) (sameSuitTarget (columns gameState));
  match r with
  | Some h => Ok h
  | None =>
      r ← searchMoves (columns gameState) (anyTarget (columns gameState));
      match r with
      | Some h => Ok h
      | None =>
          if decide (0 < len (stock gameState)) then Ok HintDeal
          else Ok HintNoMoves
      end
  end.

(** ** The other exports of [gameLogic.ts] *)

Definition getMovableSequenceStart (column : list Card) (fromIndex : Z)
  : result bool :=
  if decide (len column ≤ fromIndex) then Ok false else
  up ← field faceUp (at_ column fromIndex);
  if negb up then Ok false else
  isValidSequence column fromIndex.

Definition getSuitColor (suit : Suit) : string :=
  match suit with
  | Hearts | Diamonds => "text-red-600"
  | Spades | Clubs => "text-gray-900"
  end.

(** ** Render helpers ([App.tsx]) *)

Definition CARD_WIDTH : Z := 80.
Definition CARD_HEIGHT : Z := 112.
Definition FACE_UP_OFFSET : Z := 28.
Definition FACE_DOWN_OFFSET : Z := 10.

(** [for (let i = ...; i < ...; i++) h += column[i].faceUp ? FACE_UP_OFFSET
    : FACE_DOWN_OFFSET], with [n] rounds left; the loop of [getColumnHeight]
    and the loop that places a card in the rendering of a column. *)
Fixpoint add_offsets (column : list Card) (n : nat) (i : Z) (h : Z) : result Z :=
  match n with
  | O => Ok h
  | S n' =>
      up ← field faceUp (at_ column i);
      add_offsets column n' (i + 1)
        (h + if up : bool then FACE_UP_OFFSET else FACE_DOWN_OFFSET)
  end.

Definition getColumnHeight (column : list Card) : result Z :=
  if decide (len column = 0) then Ok CARD_HEIGHT else
  add_offsets column (Z.to_nat (len column - 1 - 0)) 0 CARD_HEIGHT.

(** [yOffset] of the card at [cardIdx], as the column is rendered:
    [let yOffset = 0; for (let i = 0; i < cardIdx; i++) yOffset += ...]. *)
Definition yOffset (column : list Card) (cardIdx : Z) : result Z :=
  add_offsets column (Z.to_nat (cardIdx - 0)) 0 0.

(** ** Click handlers ([App.tsx])

    The component state the handlers read and set: [gameState],
    [selectedCard], [hint], and the flag [wasDragRef.current]. A handler is
    a function from the state it finds to the state it leaves. *)

#[global] Instance Difficulty_eq_dec : EqDecision Difficulty.
Proof. solve_decision. Defined.
#[global] Instance GameState_eq_dec : EqDecision GameState.
Proof. solve_decision. Defined.

Record Selected := mkSelected {
  colIdx : Z;
  cardIdx : Z;
}.

#[global] Instance Selected_eq_dec : EqDecision Selected.
Proof. solve_decision. Defined.

Record AppState := mkApp {
  gameState : option GameState;
  selectedCard : option Selected;
  hint : option string;
  wasDrag : bool;
}.

Definition setGameState (app : AppState) (v : option GameState) : AppState :=
  {| gameState := v; selectedCard := selectedCard app; hint := hint app;
     wasDrag := wasDrag app |}.

Definition setSelectedCard (app : AppState) (v : option Selected) : AppState :=
  {| gameState := gameState app; selectedCard := v; hint := hint app;
     wasDrag := wasDrag app |}.

Definition setHint (app : AppState) (v : option string) : AppState :=
  {| gameState := gameState app; selectedCard := selectedCard app; hint := v;
     wasDrag := wasDrag app |}.

(** [newState !== gameState] compares references. [moveCards] returns the
    object it was given when it rejects the move and a fresh object, whose
    [moves] is larger, when it accepts it; so the two references differ
    exactly when the two states do. *)
Definition handleCardClick (colIdx cardIdx : Z) (app : AppState)
  : result AppState :=
  if wasDrag app then Ok app else
  match gameState app with
  | None => Ok app
  | Some gs =>
      let column := at_ (columns gs) colIdx in
      card ← field (fun col => at_ col cardIdx) column;
      up ← field faceUp card;
      if negb up then Ok app else
      valid ← from_option (fun col => isValidSequence col cardIdx) TypeError column;
      if negb valid then Ok app else
      match selectedCard app with
      | Some (mkSelected selCol selCard) =>
          let toggle (app : AppState) :=
            let app :=
              if decide (selCol = colIdx ∧ selCard = cardIdx)
              then setSelectedCard app None
              else setSelectedCard app
                     (Some {| colIdx := colIdx; cardIdx := cardIdx |}) in
            Ok (setHint app None) in
          if decide (selCol ≠ colIdx) then
            newState ← moveCards gs selCol selCard colIdx;
            if decide (newState ≠ gs) then
              Ok (setSelectedCard (setGameState app (Some newState)) None)
            else toggle app
          else toggle app
      | None =>
          Ok (setHint
                (setSelectedCard app (Some {| colIdx := colIdx; cardIdx := cardIdx |}))
                None)
      end
  end.

Definition handleEmptyColumnClick (colIdx : Z) (app : AppState)
  : result AppState :=
  match gameState app, selectedCard app with
  | Some gs, Some (mkSelected selCol selCard) =>
      newState ← moveCards gs selCol selCard colIdx;
      let app := if decide (newState ≠ gs) then setGameState app (Some newState)
                 else app in
      Ok (setSelectedCard app None)
  | _, _ => Ok app
  end.

Definition handleDeal (app : AppState) : result AppState :=
  match gameState app with
  | None => Ok app
  | Some gs =>
      let app := setSelectedCard app None in
      let app := setHint app None in
      if decide (len (stock gs) = 0) then
        Ok (setHint app (Some "No more cards to deal!"%string))
      else
      let hasEmpty := existsb (fun col => bool_decide (len col = 0)) (columns gs) in
      if hasEmpty then
        Ok (setHint app (Some "Fill all empty columns before dealing!"%string))
      else
      res ← dealFromStock gs;
      match res with
      | Some newState => Ok (setGameState app (Some newState))
      | None => Ok app
      end
  end.

(** ** Specification-side predicates

    The properties below are stated with these predicates; each follows the
    wording of the specification, and the theorems relate them to the
    functions above. *)

(** Every card from [start] to the end of the column is face-up, and every
    adjacent pair in that range has the same suit and a rank value that
    decreases by exactly one toward the top. *)
Definition valid_from (cards : list Card) (start : Z) : Prop :=
  (∀ k a, start ≤ k → at_ cards k = Some a → faceUp a = true) ∧
  (∀ k a b, start ≤ k → at_ cards k = Some a → at_ cards (k + 1) = Some b →
     suit b = suit a ∧ getRankValue (rank a) - getRankValue (rank b) = 1).

(** What one round of the loop of [isValidSequence] checks at index [i]. *)
Definition step_ok (cards : list Card) (start i : Z) : bool :=
  match at_ cards i with
  | Some a =>
      faceUp a &&
      (if decide (start < i) then
         match at_ cards (i - 1) with
         | Some p => bool_decide (suit a = suit p) &&
                     bool_decide (getRankValue (rank p) - getRankValue (rank a) = 1)
         | None => false
         end
       else true)
  | None => false
  end.

(** The 13 cards of [col] from index [p] on are of one suit and run from
    King (13) down to Ace (1) without gaps. *)
Definition king_to_ace (col : list Card) (p : nat) : Prop :=
  ∃ s, ∀ k : nat, (k < 13)%nat →
    ∃ a, col !! (p + k)%nat = Some a ∧ suit a = s ∧
         getRankValue (rank a) = 13 - Z.of_nat k.

(** The 13 cards of [col] from index [p] on are all face-up. *)
Definition face_up_block (col : list Card) (p : nat) : Prop :=
  ∀ k : nat, (k < 13)%nat → ∃ a, col !! (p + k)%nat = Some a ∧ faceUp a = true.

(** A complete run begins at index [p] of [col]. *)
Definition run_at (col : list Card) (p : nat) : Prop :=
  king_to_ace col p ∧ face_up_block col p.

(** Whether [checkCompleteRun] finds a run in the column. *)
Definition has_run (col : list Card) : bool :=
  match checkCompleteRun col with
  | Ok res => found res
  | TypeError => false
  end.

(** The column with its top card turned face-up (what [flipTop] leaves). *)
Definition reveal (col : list Card) : list Card :=
  match last col with
  | Some top =>
      if faceUp top then col
      else take (length col - 1) col ++ [with_faceUp top true]
  | None => col
  end.

(** What one round of [removeCompleteRuns] leaves of a column. *)
Definition settle (col : list Card) : list Card :=
  if has_run col then reveal (take (length col - 13) col) else col.

(** The number of columns that hold a complete run. *)
Definition runs_in (cols : list (list Card)) : Z :=
  Z.of_nat (length (filter (fun col => has_run col = true) cols)).

(** The state [moveCards] hands to [removeCompleteRuns] when it accepts the
    move of the cards of [srcCol] from index [i] on, from column [src] onto
    column [tgt], which holds [tgtCol]. *)
Definition after_move (state : GameState) (src i tgt : Z)
    (srcCol tgtCol : list Card) : GameState :=
  {| columns :=
       set_at (set_at (columns state) src (reveal (take (Z.to_nat i) srcCol)))
              tgt (tgtCol ++ drop (Z.to_nat i) srcCol);
     stock := stock state;
     completedRuns := completedRuns state;
     score := score state - 1;
     moves := moves state + 1;
     difficulty := difficulty state |}.

(** The state [dealFromStock] hands to [removeCompleteRuns] when it deals
    [pile] and leaves the piles [rest]: column [i] receives card [i] of the
    pile, face-up. *)
Definition after_deal (state : GameState) (rest : list (list Card))
    (pile : list Card) : GameState :=
  {| columns :=
       zip_with (fun col card => col ++ [with_faceUp card true])
                (columns state) pile;
     stock := rest;
     completedRuns := completedRuns state;
     score := score state;
     moves := moves state + 1;
     difficulty := difficulty state |}.

(** The pack [createGame] builds before it shuffles: [8 / numSuits] copies
    of the deck of the chosen suits. *)
Definition pack_of (difficulty : Difficulty) : list Card :=
  let suits :=
    match difficulty with
    | D1 => [Spades]
    | D2 => [Spades; Hearts]
    | D4 => [Spades; Hearts; Diamonds; Clubs]
    end in
  foldl (fun allCards i =>
           allCards ++
           imap (fun idx c => with_id c (game_card_id i idx c)) (createDeck suits))
        [] (seq 0 (8 / length suits)%nat).

(** The layout [createGame] deals from the shuffled pack [allCards]. *)
Definition lay_out (allCards : list Card) (difficulty : Difficulty)
  : option GameState :=
  '(columns, cardIdx) ← deal_columns allCards (seq 0 10) [] 0%nat;
  stock ← deal_stock allCards (length allCards) [] cardIdx;
  Some {| columns := columns; stock := stock; completedRuns := 0;
          score := 500; moves := 0; difficulty := difficulty |}.

(** The column of [n] cards dealt from index [idx] of the pack on, with the
    card of the last row turned face-up. *)
Definition dealt_column (allCards : list Card) (n idx : nat) : list Card :=
  zip_with (fun row card =>
              if decide (row = (n - 1)%nat) then with_faceUp card true else card)
           (seq 0 n) (take n (drop idx allCards)).

(** The number of cards in a list of columns or of stock piles. *)
Definition card_count (piles : list (list Card)) : Z :=
  Z.of_nat (length (concat piles)).

(** The number of suits a difficulty stands for. *)
Definition num_suits (difficulty : Difficulty) : nat :=
  match difficulty with
  | D1 => 1
  | D2 => 2
  | D4 => 4
  end.

(** The states a game can be in: those [createGame] returns, and those
    [moveCards] and [dealFromStock] return from such a state. *)
Inductive reachable : GameState → Prop :=
| reach_new (rnd : nat → nat) (difficulty : Difficulty) (state : GameState) :
    createGame rnd difficulty = Some state → reachable state
| reach_move (state : GameState) (src i tgt : Z) (state' : GameState) :
    reachable state → moveCards state src i tgt = Ok state' → reachable state'
| reach_deal (state state' : GameState) :
    reachable state → dealFromStock state = Ok (Some state') → reachable state'.

(** Once a card of the column is face-up, every card above it is. *)
Definition face_up_contiguous (col : list Card) : Prop :=
  ∀ (i j : nat) a b, col !! i = Some a → col !! j = Some b → (i < j)%nat →
    faceUp a = true → faceUp b = true.

(** No complete run begins anywhere in the column. *)
Definition no_run (col : list Card) : Prop := ∀ p, ¬ run_at col p.

(** A complete run can only be the final 13 cards of the column. *)
Definition no_buried_run (col : list Card) : Prop :=
  ∀ p, run_at col p → (p + 13 = length col)%nat.

(** Rank values fall by one from each card of [m] to the next. *)
Definition descending (m : list Card) : Prop :=
  ∀ (k : nat) a b, m !! k = Some a → m !! S k = Some b →
    getRankValue (rank a) - getRankValue (rank b) = 1.

(** What holds of every state of a game. *)
Definition table_ok (state : GameState) : Prop :=
  length (columns state) = 10%nat ∧
  Forall (fun pile => length pile = 10%nat) (stock state) ∧
  card_count (columns state) + card_count (stock state)
    + 13 * completedRuns state = 104 ∧
  0 ≤ completedRuns state ∧
  Forall (fun col => face_up_contiguous col ∧ no_run col) (columns state).

(** A move [moveCards] accepts (section 4.3): two different columns for
    which [canMoveCards] answers [true]. *)
Definition legal_move (cols : list (list Card)) (src i tgt : Z) : Prop :=
  src ≠ tgt ∧ canMoveCards (at_ cols src) i (at_ cols tgt) = Ok true.

(** A legal move onto a non-empty column whose top card has the suit of the
    moving sequence. *)
Definition same_suit_move (cols : list (list Card)) (src i tgt : Z) : Prop :=
  legal_move cols src i tgt ∧
  ∃ col tcol a top,
    at_ cols src = Some col ∧ at_ cols tgt = Some tcol ∧
    at_ col i = Some a ∧ last tcol = Some top ∧ suit top = suit a.

(** A legal move onto a non-empty column. *)
Definition any_move (cols : list (list Card)) (src i tgt : Z) : Prop :=
  legal_move cols src i tgt ∧
  ∃ tcol, at_ cols tgt = Some tcol ∧ tcol ≠ [].

(** The search order: source column, then card index, then target column. *)
Definition earlier (m m' : Z * Z * Z) : Prop :=
  let '(src, i, tgt) := m in
  let '(src', i', tgt') := m' in
  src < src' ∨ (src = src' ∧ (i < i' ∨ (i = i' ∧ tgt < tgt'))).

(** The first move, in the search order, among those that satisfy [cand]. *)
Definition first_move (cand : Z → Z → Z → Prop) (src i tgt : Z) : Prop :=
  cand src i tgt ∧
  ∀ src' i' tgt', earlier (src', i', tgt') (src, i, tgt) → ¬ cand src' i' tgt'.

(** The card [createDeck] builds as its [n]-th, for a suit and a rank. *)
Definition deck_card (n : nat) (sr : Suit * Rank) : Card :=
  {| id := deck_card_id n sr.1 sr.2; suit := sr.1; rank := sr.2;
     faceUp := false |}.


(** What a deal leaves of the column at index [idx]: the column with card
    [idx] of the pile on top, face-up, when the pile has such a card. *)
Definition deal_onto (pile : list Card) (idx : nat) (col : list Card) : list Card :=
  match pile !! idx with
  | Some card => col ++ [with_faceUp card true]
  | None => col
  end.

(** The cards of a state: those of the columns, then those of the stock. *)
Definition table_cards (state : GameState) : list Card :=
  concat (columns state) ++ concat (stock state).

(** How many of the cards have the id [x]. *)
Definition id_count (x : string) (cards : list Card) : Z :=
  Z.of_nat (length (filter (fun a => id a = x) cards)).

(** The vertical room a stack of cards takes below its first card's top
    edge when every card is followed by another: 28 for a face-up card, 10
    for a face-down one. *)
Definition stack_offset (cards : list Card) : Z :=
  foldr (fun a z => (if faceUp a then FACE_UP_OFFSET else FACE_DOWN_OFFSET) + z)
        0 cards.

(** The suits [createGame] builds the pack from. *)
Definition suits_of (difficulty : Difficulty) : list Suit :=
  match difficulty with
  | D1 => [Spades]
  | D2 => [Spades; Hearts]
  | D4 => [Spades; Hearts; Diamonds; Clubs]
  end.

(** All cards of the columns and of the stock are of the suits [suits]. *)
Definition suits_within (suits : list Suit) (state : GameState) : Prop :=
  Forall (Forall (fun a => suit a ∈ suits)) (columns state) ∧
  Forall (Forall (fun a => suit a ∈ suits)) (stock state).

(** ** Sample inputs *)

(** A column of thirteen spades, King down to Ace, whose King is still
    face-down. *)
Definition buried_king : list Card :=
  mkCard "k" Spades RK false ::
  map (fun r => mkCard "c" Spades r true)
      [RQ; RJ; R10; R9; R8; R7; R6; R5; R4; R3; R2; RA].

(** Four columns with a two-card spade sequence on the first. *)
Definition small_table : GameState :=
  {| columns :=
       [[mkCard "a" Hearts R3 false; mkCard "b" Spades R7 true;
         mkCard "c" Spades R6 true];
        [mkCard "d" Hearts R8 true];
        [];
        [mkCard "e" Spades R8 false; mkCard "f" Spades R7 true]];
     stock := []; completedRuns := 0; score := 500; moves := 0;
     difficulty := D2 |}.

(** Ten columns of one card each and a stock of one pile. *)
Definition full_table : GameState :=
  {| columns := replicate 10 [mkCard "x" Hearts R5 true];
     stock := [replicate 10 (mkCard "y" Clubs R9 false)];
     completedRuns := 0; score := 500; moves := 0; difficulty := D4 |}.

(** Short names for the cards of the examples. *)
Definition up (s : Suit) (r : Rank) : Card := mkCard "t" s r true.
Definition down (s : Suit) (r : Rank) : Card := mkCard "t" s r false.

(** Thirteen face-up cards of one suit, King down to Ace. *)
Definition full_run (s : Suit) : list Card := up s <$> reverse RANKS.

(** A column one Ace short of a run, and the Ace on the next column. *)
Definition nearly_done : GameState :=
  {| columns := [take 12 (full_run Clubs); [up Hearts R2; up Clubs RA]];
     stock := []; completedRuns := 0; score := 500; moves := 0;
     difficulty := D4 |}.


(** The table of a won game. *)
Definition won_table : GameState :=
  {| columns := replicate 10 []; stock := []; completedRuns := 8;
     score := 1180; moves := 120; difficulty := D1 |}.


(** The component state with [small_table] on show and nothing selected. *)
Definition small_app : AppState :=
  {| gameState := Some small_table; selectedCard := None;
     hint := Some "Try moving from column 1 to column 4"%string;
     wasDrag := false |}.

(** * Properties *)

(** ** Array reads and the loop combinator *)

Lemma at_nat {A} (l : list A) (n : nat) : at_ l (Z.of_nat n) = l !! n.
Proof. unfold at_. rewrite decide_True by lia. by rewrite Nat2Z.id. Qed.


Lemma at_Some {A} (l : list A) (i : Z) (x : A) :
  at_ l i = Some x ↔ 0 ≤ i ∧ l !! Z.to_nat i = Some x.
Proof.
  unfold at_. case_decide; split; try done.
  - by intros [_ ?].
  - intros [? _]. lia.
Qed.

Lemma at_Some_lt {A} (l : list A) (i : Z) (x : A) :
  at_ l i = Some x → 0 ≤ i < len l.
Proof.
  rewrite at_Some. intros [? H%lookup_lt_Some]. unfold len. lia.
Qed.

Lemma at_in_range {A} (l : list A) (i : Z) :
  0 ≤ i < len l → ∃ x, at_ l i = Some x ∧ l !! Z.to_nat i = Some x.
Proof.
  unfold len. intros Hi.
  destruct (lookup_lt_is_Some_2 l (Z.to_nat i)) as [x Hx]; [lia|].
  exists x. split; [|done]. apply at_Some. split; [lia|done].
Qed.


Lemma set_at_nat {A} (l : list A) (n : nat) (v : A) :
  set_at l (Z.of_nat n) v = <[n := v]> l.
Proof. unfold set_at. rewrite decide_True by lia. by rewrite Nat2Z.id. Qed.



Lemma for_loop_checks {R} (n : nat) (i : Z) (body : Z → result (option R))
    (P : Z → bool) (x : R) :
  (∀ k : nat, (k < n)%nat →
     body (i + Z.of_nat k) = Ok (if P (i + Z.of_nat k) then None else Some x)) →
  ∃ r, for_loop n i body = Ok r ∧ (r = None ∨ r = Some x) ∧
       (r = None ↔ ∀ k : nat, (k < n)%nat → P (i + Z.of_nat k) = true).
Proof.
  revert i. induction n as [|n IH]; intros i Hb; simpl.
  - exists None. split_and!; [done | by left | split; [intros; lia | done]].
  - assert (body i = Ok (if P i then None else Some x)) as ->.
    { specialize (Hb O). rewrite Z.add_0_r in Hb. apply Hb. lia. }
    destruct (P i) eqn:HP; simpl.
    + destruct (IH (i + 1)) as (r & -> & Hr & Hiff).
      { intros k Hk. replace (i + 1 + Z.of_nat k) with (i + Z.of_nat (S k)) by lia.
        apply Hb. lia. }
      exists r. split_and!; [done | done |]. rewrite Hiff. split.
      * intros H [|k] Hk; [by rewrite Z.add_0_r|].
        replace (i + Z.of_nat (S k)) with (i + 1 + Z.of_nat k) by lia.
        apply H. lia.
      * intros H k Hk.
        replace (i + 1 + Z.of_nat k) with (i + Z.of_nat (S k)) by lia.
        apply H. lia.
    + exists (Some x). split_and!; [done | by right |]. split; [done|].
      intros H. specialize (H O). rewrite Z.add_0_r in H.
      rewrite HP in H. discriminate H. lia.
Qed.

(** ** [isValidSequence] *)

Lemma isValidSequence_checks (cards : list Card) (start : Z) :
  0 ≤ start →
  ∃ b, isValidSequence cards start = Ok b ∧
       (b = true ↔ ∀ i, start ≤ i < len cards → step_ok cards start i = true).
Proof.
  intros Hs. unfold isValidSequence, for_range.
  match goal with
  | |- context [for_loop ?n ?i ?body] =>
      destruct (for_loop_checks n i body (step_ok cards start) false)
        as (r & -> & Hr & Hiff)
  end.
  { intros k Hk. unfold step_ok.
    destruct (at_in_range cards (start + Z.of_nat k)) as (a & -> & _); [lia|].
    simpl. destruct (faceUp a); simpl; [|done].
    case_decide; [|done].
    destruct (at_in_range cards (start + Z.of_nat k - 1)) as (p & -> & _); [lia|].
    simpl. repeat case_decide; repeat case_bool_decide; simpl; try done. }
  simpl. exists (default true r). split; [done|].
  destruct Hr as [-> | ->]; simpl.
  - split; [|done]. intros _ i Hi.
    replace i with (start + Z.of_nat (Z.to_nat (i - start))) by lia.
    apply Hiff; [done | lia].
  - split; [done|]. intros H. exfalso.
    assert (Some false = @None bool) as Hn; [|done].
    apply Hiff. intros k Hk. apply H. lia.
Qed.

Lemma step_ok_valid_from (cards : list Card) (start : Z) :
  0 ≤ start →
  (∀ i, start ≤ i < len cards → step_ok cards start i = true) ↔
  valid_from cards start.
Proof.
  intros Hs. unfold valid_from, step_ok. split.
  - intros H. split.
    + intros k a Hk Ha. pose proof (at_Some_lt _ _ _ Ha).
      specialize (H k ltac:(lia)). rewrite Ha in H.
      by apply andb_prop in H as [? _].
    + intros k a b Hk Ha Hb. pose proof (at_Some_lt _ _ _ Hb).
      specialize (H (k + 1) ltac:(lia)). rewrite Hb in H.
      rewrite decide_True in H by lia.
      replace (k + 1 - 1) with k in H by lia. rewrite Ha in H.
      apply andb_prop in H as [_ H]. apply andb_prop in H as [H1 H2].
      by apply bool_decide_eq_true in H1, H2.
  - intros [Hup Hadj] i Hi.
    destruct (at_in_range cards i) as (a & Ha & _); [lia|]. rewrite Ha.
    rewrite (Hup i a) by (done || lia). simpl.
    case_decide; [|done].
    destruct (at_in_range cards (i - 1)) as (p & Hp & _); [lia|]. rewrite Hp.
    destruct (Hadj (i - 1) p a) as [-> ->]; [lia | done | |].
    + by replace (i - 1 + 1) with i by lia.
    + by rewrite !bool_decide_eq_true_2.
Qed.

Lemma isValidSequence_spec (cards : list Card) (start : Z) :
  0 ≤ start →
  ∃ b, isValidSequence cards start = Ok b ∧ (b = true ↔ valid_from cards start).
Proof.
  intros Hs. destruct (isValidSequence_checks cards start Hs) as (b & Hb & Hiff).
  exists b. split; [done|]. by rewrite Hiff, step_ok_valid_from.
Qed.

(** ** [canMoveCards] *)

Lemma at_top {A} (l : list A) : at_ l (len l - 1) = last l.
Proof.
  rewrite last_lookup. unfold at_, len. destruct l as [|x l]; [done|].
  rewrite decide_True by (simpl; lia). f_equal. simpl. lia.
Qed.

Lemma canMoveCards_cases (source target : list Card) (i : Z) :
  ∃ b, canMoveCards (Some source) i (Some target) = Ok b ∧
    (b = true ↔
       0 ≤ i < len source ∧
       valid_from source i ∧
       (target = [] ∨
        ∃ top bottom, last target = Some top ∧ at_ source i = Some bottom ∧
          faceUp top = true ∧
          getRankValue (rank top) - getRankValue (rank bottom) = 1)).
Proof.
  unfold canMoveCards. case_decide as Hneg.
  { exists false. split; [done|]. split; [done | intros [? _]; lia]. }
  simpl. case_decide as Hlen.
  { exists false. split; [done|]. split; [done | intros [? _]; lia]. }
  destruct (isValidSequence_spec source i) as (v & -> & Hv); [lia|].
  simpl. destruct v; simpl.
  2:{ exists false. split; [done|]. split; [done|].
      intros (_ & Hval & _). apply Hv in Hval. done. }
  assert (valid_from source i) as Hval by by apply Hv.
  case_decide as Hempty.
  { exists true. split; [done|]. split; [|done]. intros _.
    split_and!; [lia | lia | done | left].
    destruct target; [done | unfold len in Hempty; simpl in Hempty; lia]. }
  rewrite at_top.
  destruct (at_in_range source i) as (bottom & Hbot & _); [lia|]. rewrite Hbot.
  destruct (last target) as [top|] eqn:Htop.
  2:{ apply last_None in Htop. subst target. done. }
  simpl. destruct (faceUp top) eqn:Hup; simpl.
  - eexists. split; [done|]. rewrite bool_decide_eq_true. split.
    + intros Hr. split_and!; [lia | lia | done | right]. by exists top, bottom.
    + intros (_ & _ & [-> | (top' & bottom' & ? & ? & _ & Hr)]); [done|].
      by simplify_eq.
  - exists false. split; [done|]. split; [done|].
    intros (_ & _ & [-> | (top' & bottom' & ? & ? & Hup' & _)]); [done|].
    simplify_eq. congruence.
Qed.

(** C2. [canMoveCards] on two columns always returns a boolean, and it
    returns [true] exactly when the start index is an index of the source
    column, the cards from it to the end of the source column are face-up
    with every adjacent pair of one suit and of rank values falling by
    one, and the target column is empty or has a face-up top card whose
    rank value is one more than that of the card at the start index. The
    suit of the target's top card plays no part: giving that card any
    other suit leaves the answer as it is. *)
Theorem canMoveCards_spec (source target : list Card) (i : Z) :
  (∃ b, canMoveCards (Some source) i (Some target) = Ok b ∧
     (b = true ↔
        0 ≤ i < len source ∧
        valid_from source i ∧
        (target = [] ∨
         ∃ top bottom, last target = Some top ∧ at_ source i = Some bottom ∧
           faceUp top = true ∧
           getRankValue (rank top) - getRankValue (rank bottom) = 1))) ∧
  (∀ below top s,
     target = below ++ [top] →
     canMoveCards (Some source) i (Some (below ++ [with_suit top s])) =
     canMoveCards (Some source) i (Some target)).
Proof.
  split; [apply canMoveCards_cases|].
  intros below top s ->.
  destruct (canMoveCards_cases source (below ++ [top]) i) as (b & -> & Hb).
  destruct (canMoveCards_cases source (below ++ [with_suit top s]) i)
    as (b' & -> & Hb').
  f_equal. destruct Hb as [Hb1 Hb2], Hb' as [Hb1' Hb2'].
  destruct b, b'; try done.
  - apply Hb2'.
    destruct (Hb1 eq_refl) as (Hi & Hv & [Hnil | (t & bottom & Hl & Hbot & Hup & Hr)]);
      [by destruct below|].
    rewrite last_snoc in Hl. injection Hl as <-.
    split_and!; [lia | lia | done | right].
    exists (with_suit top s), bottom. by rewrite last_snoc.
  - symmetry. apply Hb2.
    destruct (Hb1' eq_refl) as (Hi & Hv & [Hnil | (t & bottom & Hl & Hbot & Hup & Hr)]);
      [by destruct below|].
    rewrite last_snoc in Hl. injection Hl as <-.
    split_and!; [lia | lia | done | right].
    exists top, bottom. by rewrite last_snoc.
Qed.

Lemma canMoveCards_spec_witness :
  canMoveCards (Some [up Spades R7]) 0 (Some [up Clubs R8]) =
  canMoveCards (Some [up Spades R7]) 0 (Some [up Hearts R8]) ∧
  canMoveCards (Some [up Spades R7]) 0 (Some [up Hearts R8]) = Ok true.
Proof.
  split; [|reflexivity].
  destruct (canMoveCards_spec [up Spades R7] [up Hearts R8] 0) as [_ H].
  apply (H [] (up Hearts R8) Clubs). reflexivity.
Defined.

(** ** [checkCompleteRun] *)

Lemma valid_from_chain (col : list Card) (p : nat) (top : Card) :
  valid_from col (Z.of_nat p) → col !! p = Some top →
  ∀ (k : nat) a, col !! (p + k)%nat = Some a →
    faceUp a = true ∧ suit a = suit top ∧
    getRankValue (rank a) = getRankValue (rank top) - Z.of_nat k.
Proof.
  intros [Hup Hadj] Htop k. induction k as [|k IH]; intros a Ha.
  - rewrite Nat.add_0_r in Ha. simplify_eq. split_and!; [|done|lia].
    apply (Hup (Z.of_nat p)); [lia|]. by rewrite at_nat.
  - destruct (lookup_lt_is_Some_2 col (p + k)%nat) as [b Hb].
    { apply lookup_lt_Some in Ha. lia. }
    destruct (IH b Hb) as (_ & Hs & Hr).
    destruct (Hadj (Z.of_nat (p + k)) b a) as [Hs' Hr'].
    + lia.
    + by rewrite at_nat.
    + replace (Z.of_nat (p + k) + 1) with (Z.of_nat (p + S k)) by lia.
      by rewrite at_nat.
    + split_and!; [|congruence|lia].
      apply (Hup (Z.of_nat (p + S k))); [lia|]. by rewrite at_nat.
Qed.

Lemma run_at_valid_from (col : list Card) (p : nat) :
  (p + 13 = length col)%nat → run_at col p → valid_from col (Z.of_nat p).
Proof.
  intros Hlen [[s Hks] Hface]. split.
  - intros k a Hk Ha. pose proof (at_Some_lt _ _ _ Ha) as Hlt. unfold len in Hlt.
    destruct (Hface (Z.to_nat k - p)%nat) as (a' & Ha' & Hup); [lia|].
    apply at_Some in Ha as [_ Ha].
    replace (p + (Z.to_nat k - p))%nat with (Z.to_nat k) in Ha' by lia.
    by simplify_eq.
  - intros k a b Hk Ha Hb. pose proof (at_Some_lt _ _ _ Hb) as Hlt.
    unfold len in Hlt.
    destruct (Hks (Z.to_nat k - p)%nat) as (a' & Ha' & Hsa & Hra); [lia|].
    destruct (Hks (S (Z.to_nat k - p))%nat) as (b' & Hb' & Hsb & Hrb); [lia|].
    apply at_Some in Ha as [_ Ha]. apply at_Some in Hb as [_ Hb].
    replace (p + (Z.to_nat k - p))%nat with (Z.to_nat k) in Ha' by lia.
    replace (p + S (Z.to_nat k - p))%nat with (Z.to_nat (k + 1)) in Hb' by lia.
    simplify_eq. split; [congruence | lia].
Qed.

Lemma checkCompleteRun_found (column : list Card) :
  ∃ res, checkCompleteRun column = Ok res ∧
    (res = notFound ∨
     res = {| found := true; startIndex := len column - 13 |}) ∧
    (found res = true ↔
       (13 ≤ length column)%nat ∧ run_at column (length column - 13)).
Proof.
  unfold checkCompleteRun.
  assert (∀ (z : Z) (P : Prop), ¬ P → ∃ res, Ok notFound = Ok res ∧
            (res = notFound ∨ res = {| found := true; startIndex := z |}) ∧
            (found res = true ↔ P)) as Hno.
  { intros z P HP. exists notFound. split_and!; [done | by left | done]. }
  case_decide as Hshort.
  { apply Hno. unfold len in Hshort. intros [? _]. lia. }
  unfold len in Hshort. set (p := (length column - 13)%nat).
  assert (len column - 13 = Z.of_nat p) as Hp by (unfold len; lia).
  rewrite at_top, Hp, at_nat.
  destruct (lookup_lt_is_Some_2 column p) as [top Htop]; [lia|].
  destruct (last column) as [bot|] eqn:Hbot.
  2:{ apply last_None in Hbot. subst column. simpl in Hshort. lia. }
  assert (column !! (p + 12)%nat = Some bot) as Hbot'.
  { rewrite last_lookup in Hbot. rewrite <- Hbot. f_equal. lia. }
  rewrite Htop. simpl.
  case_decide as Hace.
  { apply Hno. intros (_ & [s Hks] & _).
    destruct (Hks 12%nat) as (a & Ha & _ & Hr); [lia|]. by simplify_eq. }
  case_decide as Hking.
  { apply Hno. intros (_ & [s Hks] & _).
    destruct (Hks 0%nat) as (a & Ha & _ & Hr); [lia|].
    rewrite Nat.add_0_r in Ha. by simplify_eq. }
  destruct (isValidSequence_spec column (Z.of_nat p)) as (v & -> & Hv); [lia|].
  simpl. destruct v; simpl.
  2:{ apply Hno. intros (_ & Hrun).
      apply run_at_valid_from, Hv in Hrun; [done | lia]. }
  assert (valid_from column (Z.of_nat p)) as Hval by by apply Hv.
  pose proof (valid_from_chain column p top Hval Htop) as Hchain.
  unfold for_range.
  match goal with
  | |- context [for_loop ?n ?i ?body] =>
      destruct (for_loop_checks n i body (fun _ => true) notFound) as (r & Hr & _ & Hiff)
  end.
  { intros k Hk. unfold len in Hk.
    destruct (lookup_lt_is_Some_2 column (p + k)%nat) as [a Ha]; [lia|].
    replace (Z.of_nat p + Z.of_nat k) with (Z.of_nat (p + k)) by lia.
    rewrite at_nat, Ha. simpl.
    destruct (Hchain k a Ha) as (_ & Hs & _).
    destruct (Hchain 12%nat bot Hbot') as (_ & Hs' & _).
    rewrite decide_False; [done | congruence]. }
  rewrite Hr.
  assert (r = None) as -> by (by apply Hiff).
  simpl. eexists. split_and!; [done | by right |]. simpl.
  split; [intros _ | done]. split; [lia|]. split.
  - exists (suit top). intros k Hk.
    destruct (lookup_lt_is_Some_2 column (p + k)%nat) as [a Ha]; [lia|].
    exists a. destruct (Hchain k a Ha) as (_ & ? & ?).
    split_and!; [done | done | lia].
  - intros k Hk.
    destruct (lookup_lt_is_Some_2 column (p + k)%nat) as [a Ha]; [lia|].
    exists a. by destruct (Hchain k a Ha) as (? & _).
Qed.

(** C5, amended. [checkCompleteRun] always returns a result, and it reports
    [found = true] exactly when the column has at least 13 cards and its
    final 13 cards are all face-up, of one suit, and run from King down to
    Ace without gaps; the reported start index is then the column length
    minus 13, and otherwise the result is [found = false] with index -1. *)
Theorem checkCompleteRun_spec (column : list Card) :
  ∃ res, checkCompleteRun column = Ok res ∧
    (found res = true ↔
       (13 ≤ length column)%nat ∧
       king_to_ace column (length column - 13) ∧
       face_up_block column (length column - 13)) ∧
    (found res = true → startIndex res = len column - 13) ∧
    (found res = false → res = notFound).
Proof.
  destruct (checkCompleteRun_found column) as (res & Hres & Hcases & Hiff).
  exists res. split_and!; [done | done | |].
  - intros Hf. destruct Hcases as [-> | ->]; [done | done].
  - intros Hf. destruct Hcases as [-> | ->]; [done | done].
Qed.

Lemma checkCompleteRun_spec_witness :
  ∃ res, checkCompleteRun (down Hearts R3 :: full_run Spades) = Ok res ∧
         found res = true ∧ startIndex res = 1.
Proof.
  destruct (checkCompleteRun_spec (down Hearts R3 :: full_run Spades))
    as (res & Hres & _ & Hstart & _).
  exists res. split; [done|].
  assert (found res = true) as Hfound.
  { vm_compute in Hres. by injection Hres as <-. }
  split; [done|]. rewrite (Hstart Hfound). reflexivity.
Defined.

(** C5 as stated fails: the final 13 cards of [buried_king] are of one suit
    and run from King down to Ace, yet no run is found, because the King is
    face-down. *)
Lemma checkCompleteRun_face_down_counterexample :
  (13 ≤ length buried_king)%nat ∧
  king_to_ace buried_king (length buried_king - 13) ∧
  checkCompleteRun buried_king = Ok notFound.
Proof.
  split_and!; [simpl; lia | | reflexivity].
  exists Spades. intros k Hk.
  do 13 (destruct k as [|k]; [eexists; split_and!; reflexivity|]). lia.
Qed.

(** ** [flipTop] and [removeCompleteRuns] *)

Lemma with_faceUp_same (a : Card) : faceUp a = true → with_faceUp a true = a.
Proof. destruct a. simpl. by intros ->. Qed.


Lemma reveal_snoc (l : list Card) (a : Card) :
  reveal (l ++ [a]) = l ++ [with_faceUp a true].
Proof.
  unfold reveal. rewrite last_snoc, length_app. simpl.
  replace (length l + 1 - 1)%nat with (length l) by lia.
  rewrite take_app_length. destruct (faceUp a) eqn:Hup; [|done].
  by rewrite with_faceUp_same.
Qed.

Lemma flipTop_reveal (col : list Card) : flipTop col = Ok (reveal col).
Proof.
  unfold flipTop. destruct col as [|a l _] using rev_ind; [done|].
  rewrite reveal_snoc, at_top, last_snoc. unfold len. rewrite length_app. simpl.
  rewrite decide_True by lia. destruct (faceUp a) eqn:Hup; simpl.
  - by rewrite with_faceUp_same.
  - f_equal. replace (Z.of_nat (length l + 1) - 1) with (Z.of_nat (length l)) by lia.
    rewrite set_at_nat.
    replace (length l) with (length l + 0)%nat at 1 by lia.
    by rewrite insert_app_r.
Qed.

Lemma splice_in_range {A} (l : list A) (i : Z) :
  0 ≤ i ≤ len l → splice l i = (take (Z.to_nat i) l, drop (Z.to_nat i) l).
Proof.
  intros Hi. unfold splice. rewrite decide_False by lia.
  by rewrite Z.min_l by lia.
Qed.

Lemma has_run_found (col : list Card) :
  checkCompleteRun col =
    Ok (if has_run col then {| found := true; startIndex := len col - 13 |}
        else notFound).
Proof.
  unfold has_run.
  destruct (checkCompleteRun_found col) as (res & -> & [-> | ->] & _); done.
Qed.

Lemma has_run_iff (col : list Card) :
  has_run col = true ↔ (13 ≤ length col)%nat ∧ run_at col (length col - 13).
Proof.
  unfold has_run.
  by destruct (checkCompleteRun_found col) as (res & -> & _ & Hiff).
Qed.

Lemma runs_in_cons (col : list Card) (cols : list (list Card)) :
  runs_in (col :: cols) = (if has_run col then 1 else 0) + runs_in cols.
Proof.
  unfold runs_in. rewrite filter_cons. destruct (has_run col).
  - rewrite decide_True by done. simpl length. lia.
  - rewrite decide_False by done. lia.
Qed.

Lemma bind_Ok {A B} (a : A) (f : A → result B) : (Ok a ≫= f) = f a.
Proof. done. Qed.

Lemma defined_Some {A} (a : A) : defined (Some a) = Ok a.
Proof. done. Qed.

Lemma removeCompleteRuns_loop_S (n : nat) (colIdx : Z)
    (cols : list (list Card)) (cr sc : Z) :
  removeCompleteRuns_loop (S n) colIdx cols cr sc =
    col ← defined (at_ cols colIdx);
    res ← checkCompleteRun col;
    if found res then
      kept' ← flipTop (splice col (startIndex res)).1;
      removeCompleteRuns_loop n (colIdx + 1) (set_at cols colIdx kept')
        (cr + 1) (sc + 100)
    else removeCompleteRuns_loop n (colIdx + 1) cols cr sc.
Proof. done. Qed.

Lemma len_snoc {A} (l : list A) (a : A) : len (l ++ [a]) = len l + 1.
Proof. unfold len. rewrite length_app. simpl. lia. Qed.

Lemma at_middle {A} (l1 l2 : list A) (a : A) :
  at_ (l1 ++ a :: l2) (len l1) = Some a.
Proof. unfold len. by rewrite at_nat, list_lookup_middle. Qed.

Lemma set_at_middle {A} (l1 l2 : list A) (a b : A) :
  set_at (l1 ++ a :: l2) (len l1) b = l1 ++ b :: l2.
Proof.
  unfold len. rewrite set_at_nat.
  replace (length l1) with (length l1 + 0)%nat at 1 by lia.
  by rewrite insert_app_r.
Qed.

Lemma removeCompleteRuns_loop_spec (rest pre : list (list Card)) (cr sc : Z) :
  removeCompleteRuns_loop (length rest) (len pre) (pre ++ rest) cr sc =
    Ok (pre ++ map settle rest, cr + runs_in rest, sc + 100 * runs_in rest).
Proof.
  revert pre cr sc. induction rest as [|col rest IH]; intros pre cr sc.
  - simpl. unfold runs_in. simpl. do 3 f_equal; lia.
  - change (length (col :: rest)) with (S (length rest)).
    rewrite removeCompleteRuns_loop_S, at_middle, defined_Some, bind_Ok.
    rewrite has_run_found, bind_Ok, runs_in_cons.
    change (map settle (col :: rest)) with (settle col :: map settle rest).
    assert (∀ (c : list Card) cr' sc',
              removeCompleteRuns_loop (length rest) (len pre + 1)
                (pre ++ c :: rest) cr' sc' =
              Ok (pre ++ c :: map settle rest, cr' + runs_in rest,
                  sc' + 100 * runs_in rest)) as Hnext.
    { intros c cr' sc'. rewrite <- (len_snoc pre c).
      replace (pre ++ c :: rest) with ((pre ++ [c]) ++ rest)
        by (by rewrite <- app_assoc).
      rewrite IH. by rewrite <- app_assoc. }
    unfold settle at 1. destruct (has_run col) eqn:Hrun.
    + apply has_run_iff in Hrun as [Hlen _].
      cbn [found startIndex].
      rewrite splice_in_range by (unfold len; lia). cbn [fst].
      rewrite flipTop_reveal, bind_Ok, set_at_middle, Hnext.
      replace (Z.to_nat (len col - 13)) with (length col - 13)%nat
        by (unfold len; lia).
      f_equal. rewrite !pair_equal_spec. split_and!; [done | lia | lia].
    + cbn [found notFound]. by rewrite Hnext.
Qed.

Lemma removeCompleteRuns_spec (state : GameState) :
  removeCompleteRuns state =
    Ok {| columns := map settle (columns state); stock := stock state;
          completedRuns := completedRuns state + runs_in (columns state);
          score := score state + 100 * runs_in (columns state);
          moves := moves state; difficulty := difficulty state |}.
Proof.
  unfold removeCompleteRuns.
  pose proof (removeCompleteRuns_loop_spec (columns state) [] (completedRuns state)
                (score state)) as H.
  change (len []) with 0 in H. rewrite app_nil_l in H. by rewrite H.
Qed.

(** ** [moveCards] *)

Lemma at_set_at_ne {A} (l : list A) (i j : Z) (v : A) :
  i ≠ j → at_ (set_at l i v) j = at_ l j.
Proof.
  intros Hne. unfold at_, set_at. repeat case_decide; try done.
  apply list_lookup_insert_ne. lia.
Qed.

Lemma at_set_at_eq {A} (l : list A) (i : Z) (x v : A) :
  at_ l i = Some x → at_ (set_at l i v) i = Some v.
Proof.
  intros [Hi Hx]%at_Some. unfold at_, set_at. rewrite !decide_True by done.
  apply list_lookup_insert_eq. by eapply lookup_lt_Some.
Qed.

Lemma set_at_set_at_eq {A} (l : list A) (i : Z) (x y : A) :
  set_at (set_at l i x) i y = set_at l i y.
Proof. unfold set_at. case_decide; [|done]. apply list_insert_insert_eq. Qed.

Lemma set_at_commute {A} (l : list A) (i j : Z) (x y : A) :
  i ≠ j → set_at (set_at l i x) j y = set_at (set_at l j y) i x.
Proof.
  intros Hne. unfold set_at. repeat case_decide; try done.
  apply list_insert_insert_ne. lia.
Qed.

Lemma canMoveCards_true_defined (sourceCol targetCol : option (list Card)) (i : Z) :
  canMoveCards sourceCol i targetCol = Ok true →
  ∃ src tgt, sourceCol = Some src ∧ targetCol = Some tgt.
Proof.
  unfold canMoveCards. case_decide; [done|].
  destruct sourceCol as [src|]; [|done]. simpl. case_decide; [done|].
  destruct (isValidSequence src i) as [[]|]; simpl; try done.
  destruct targetCol as [tgt|]; [|done]. intros _. by exists src, tgt.
Qed.

Lemma moveCards_accepted (state : GameState) (src i tgt : Z)
    (srcCol tgtCol : list Card) :
  src ≠ tgt →
  at_ (columns state) src = Some srcCol →
  at_ (columns state) tgt = Some tgtCol →
  canMoveCards (Some srcCol) i (Some tgtCol) = Ok true →
  moveCards state src i tgt =
    removeCompleteRuns (after_move state src i tgt srcCol tgtCol).
Proof.
  intros Hne Hsrc Htgt Hcan. unfold moveCards.
  rewrite decide_False by done. rewrite Hsrc, Htgt, Hcan, bind_Ok.
  cbn [negb]. rewrite defined_Some, bind_Ok.
  destruct (canMoveCards_cases srcCol tgtCol i) as (b & Hb & Hiff).
  rewrite Hcan in Hb. injection Hb as <-.
  destruct Hiff as [Hiff _]. destruct (Hiff eq_refl) as (Hi & _).
  rewrite splice_in_range by lia.
  rewrite at_set_at_ne, Htgt, defined_Some, bind_Ok by done.
  rewrite at_set_at_ne by done.
  rewrite (at_set_at_eq _ _ srcCol) by done.
  rewrite defined_Some, bind_Ok, flipTop_reveal, bind_Ok.
  unfold after_move. do 2 f_equal.
  rewrite (set_at_commute _ tgt src) by done.
  by rewrite set_at_set_at_eq.
Qed.



(** ** [dealFromStock] *)

Lemma snoc_cases {A} (l : list A) : l = [] ∨ ∃ l' a, l = l' ++ [a].
Proof. destruct l as [|a l' _] using rev_ind; [by left | right; eauto]. Qed.

Lemma has_empty_column (cols : list (list Card)) :
  existsb (fun col => bool_decide (len col = 0)) cols = true ↔ [] ∈ cols.
Proof.
  rewrite existsb_exists. split.
  - intros (col & Hin & Hlen). apply bool_decide_eq_true in Hlen.
    apply list_elem_of_In in Hin.
    destruct col; [done | unfold len in Hlen; simpl in Hlen; lia].
  - intros Hin. exists []. by rewrite <- list_elem_of_In.
Qed.

Lemma deal_onto_columns (cols : list (list Card)) (dealPile : list Card) :
  (length cols ≤ length dealPile)%nat →
  imap (fun idx col =>
          if decide (Z.of_nat idx < len dealPile) then
            from_option (fun card => col ++ [with_faceUp card true]) col
                        (dealPile !! idx)
          else col) cols =
  zip_with (fun col card => col ++ [with_faceUp card true]) cols dealPile.
Proof.
  intros Hlen. apply list_eq. intros i.
  rewrite list_lookup_imap, lookup_zip_with.
  destruct (cols !! i) as [col|] eqn:Hcol; [|done]. simpl.
  destruct (lookup_lt_is_Some_2 dealPile i) as [card Hcard].
  { apply lookup_lt_Some in Hcol. lia. }
  rewrite Hcard. simpl. rewrite decide_True; [done|].
  apply lookup_lt_Some in Hcard. unfold len. lia.
Qed.

Lemma dealFromStock_dealt (state : GameState) (rest : list (list Card))
    (pile : list Card) :
  stock state = rest ++ [pile] → [] ∉ columns state →
  (length (columns state) ≤ length pile)%nat →
  dealFromStock state =
    (newState ← removeCompleteRuns (after_deal state rest pile); Ok (Some newState)).
Proof.
  intros Hstock Hcols Hlen. unfold dealFromStock. rewrite Hstock.
  rewrite decide_False by (unfold len; rewrite length_app; simpl; lia).
  destruct (existsb _ (columns state)) eqn:Hex.
  { by apply has_empty_column in Hex. }
  rewrite last_snoc, defined_Some, bind_Ok, deal_onto_columns by done.
  rewrite length_app. simpl.
  replace (length rest + 1 - 1)%nat with (length rest) by lia.
  by rewrite take_app_length.
Qed.



(** ** Out-of-range indices *)

Lemma moveCards_total (state : GameState) (src i tgt : Z)
    (srcCol tgtCol : list Card) :
  at_ (columns state) src = Some srcCol →
  at_ (columns state) tgt = Some tgtCol →
  ∃ state', moveCards state src i tgt = Ok state' ∧
    (¬ 0 ≤ i < len srcCol → state' = state).
Proof.
  intros Hsrc Htgt.
  destruct (decide (src = tgt)) as [Heq|Hne].
  { exists state. split; [|done]. unfold moveCards. by rewrite decide_True. }
  destruct (canMoveCards_cases srcCol tgtCol i) as (b & Hb & Hiff).
  destruct b.
  - rewrite (moveCards_accepted state src i tgt srcCol tgtCol) by done.
    rewrite removeCompleteRuns_spec. eexists. split; [done|].
    intros Hout. destruct Hiff as [Hiff _]. destruct (Hiff eq_refl) as [? _]. lia.
  - exists state. split; [|done]. unfold moveCards.
    rewrite decide_False by done. by rewrite Hsrc, Htgt, Hb.
Qed.




(** ** [createGame] *)

Lemma createGame_phases (rnd : nat → nat) (difficulty : Difficulty) :
  createGame rnd difficulty =
    lay_out (shuffle rnd (pack_of difficulty)) difficulty.
Proof. reflexivity. Qed.

Lemma pack_of_length (difficulty : Difficulty) :
  length (pack_of difficulty) = 104%nat.
Proof. destruct difficulty; vm_compute; reflexivity. Qed.

Lemma pack_of_face_down (difficulty : Difficulty) :
  Forall (fun a => faceUp a = false) (pack_of difficulty).
Proof.
  apply Forall_forall. intros a Ha. apply list_elem_of_In in Ha.
  assert (forallb (fun a => negb (faceUp a)) (pack_of difficulty) = true) as Hall
    by (destruct difficulty; vm_compute; reflexivity).
  rewrite forallb_forall in Hall. specialize (Hall a Ha).
  by destruct (faceUp a).
Qed.

Lemma swap_length {T} (arr : list T) (i j : nat) :
  length (swap arr i j) = length arr.
Proof.
  unfold swap. destruct (arr !! i), (arr !! j); try done.
  by rewrite !length_insert.
Qed.

Lemma swap_Forall {T} (P : T → Prop) (arr : list T) (i j : nat) :
  Forall P arr → Forall P (swap arr i j).
Proof.
  intros Hall. unfold swap.
  destruct (arr !! i) as [x|] eqn:Hx; [|done].
  destruct (arr !! j) as [y|] eqn:Hy; [|done].
  apply Forall_insert; [apply Forall_insert; [done|]|];
    by eapply Forall_lookup_1.
Qed.

Lemma shuffle_length {T} (rnd : nat → nat) (arr : list T) :
  length (shuffle rnd arr) = length arr.
Proof.
  unfold shuffle. generalize (length arr - 1)%nat as i. intros i. revert arr.
  induction i as [|i IH]; intros arr; [done|].
  simpl. by rewrite IH, swap_length.
Qed.

Lemma shuffle_Forall {T} (P : T → Prop) (rnd : nat → nat) (arr : list T) :
  Forall P arr → Forall P (shuffle rnd arr).
Proof.
  unfold shuffle. generalize (length arr - 1)%nat as i. intros i. revert arr.
  induction i as [|i IH]; intros arr Hall; [done|].
  simpl. by apply IH, swap_Forall.
Qed.

Lemma deal_rows_spec (allCards : list Card) (numCards : nat) (rows : list nat)
    (column : list Card) (cardIdx : nat) :
  (cardIdx + length rows ≤ length allCards)%nat →
  deal_rows allCards numCards rows column cardIdx =
    Some (column ++
          zip_with (fun row card =>
                      if decide (row = (numCards - 1)%nat)
                      then with_faceUp card true else card)
                   rows (take (length rows) (drop cardIdx allCards)),
          (cardIdx + length rows)%nat).
Proof.
  revert column cardIdx. induction rows as [|row rows IH]; intros column cardIdx Hlen.
  - simpl. rewrite app_nil_r. do 2 f_equal. lia.
  - simpl in Hlen. simpl.
    destruct (lookup_lt_is_Some_2 allCards cardIdx) as [card Hcard]; [lia|].
    rewrite Hcard. simpl. rewrite IH by lia.
    rewrite (drop_S _ _ _ Hcard). simpl. rewrite <- app_assoc. simpl.
    do 2 f_equal. lia.
Qed.

Lemma deal_columns_step (allCards : list Card) (col : nat) (cols : list nat)
    (columns : list (list Card)) (cardIdx : nat) :
  let numCards := if decide (col < 4)%nat then 6%nat else 5%nat in
  (cardIdx + numCards ≤ length allCards)%nat →
  deal_columns allCards (col :: cols) columns cardIdx =
    deal_columns allCards cols
      (columns ++ [dealt_column allCards numCards cardIdx])
      (cardIdx + numCards)%nat.
Proof.
  intros numCards Hlen. simpl. fold numCards.
  rewrite deal_rows_spec by (rewrite length_seq; lia).
  simpl. by rewrite length_seq.
Qed.

Lemma deal_pile_spec (allCards : list Card) (n : nat) (pile : list Card)
    (cardIdx : nat) :
  (cardIdx + n ≤ length allCards)%nat →
  deal_pile allCards n pile cardIdx =
    Some (pile ++ take n (drop cardIdx allCards), (cardIdx + n)%nat).
Proof.
  revert pile cardIdx. induction n as [|n IH]; intros pile cardIdx Hlen.
  - simpl. rewrite app_nil_r. do 2 f_equal. lia.
  - simpl. rewrite decide_True by lia.
    destruct (lookup_lt_is_Some_2 allCards cardIdx) as [card Hcard]; [lia|].
    rewrite Hcard. simpl. rewrite IH by lia.
    rewrite (drop_S _ _ _ Hcard). simpl. rewrite <- app_assoc. simpl.
    do 2 f_equal. lia.
Qed.

Lemma deal_stock_step (allCards : list Card) (fuel : nat)
    (stock : list (list Card)) (cardIdx : nat) :
  (cardIdx + 10 ≤ length allCards)%nat →
  deal_stock allCards (S fuel) stock cardIdx =
    deal_stock allCards fuel (stock ++ [take 10 (drop cardIdx allCards)])
      (cardIdx + 10)%nat.
Proof.
  intros Hlen. cbn [deal_stock]. rewrite decide_True by lia.
  by rewrite deal_pile_spec by lia.
Qed.

Lemma deal_stock_done (allCards : list Card) (fuel : nat)
    (stock : list (list Card)) (cardIdx : nat) :
  (length allCards ≤ cardIdx)%nat →
  deal_stock allCards fuel stock cardIdx = Some stock.
Proof. intros Hlen. destruct fuel; simpl; by rewrite decide_False by lia. Qed.

Lemma dealt_column_length (allCards : list Card) (n idx : nat) :
  (idx + n ≤ length allCards)%nat → length (dealt_column allCards n idx) = n.
Proof.
  intros Hlen. unfold dealt_column.
  rewrite length_zip_with, length_seq, length_take, length_drop. lia.
Qed.

Lemma dealt_column_faces (allCards : list Card) (n idx : nat) :
  Forall (fun a => faceUp a = false) allCards →
  ∀ (i : nat) a, dealt_column allCards n idx !! i = Some a →
    faceUp a = bool_decide (i = (n - 1)%nat).
Proof.
  intros Hdown i a Ha. unfold dealt_column in Ha.
  apply lookup_zip_with_Some in Ha as (row & card & -> & Hrow & Hcard).
  apply lookup_seq in Hrow as [-> _]. simpl.
  assert (faceUp card = false) as Hc.
  { apply lookup_take_Some in Hcard as [Hcard _]. rewrite lookup_drop in Hcard.
    by eapply (Forall_lookup_1 _ _ _ _ Hdown). }
  case_decide; [by rewrite bool_decide_eq_true_2|].
  by rewrite bool_decide_eq_false_2.
Qed.

Lemma deal_columns_six (allCards : list Card) (col : nat) (cols : list nat)
    (columns : list (list Card)) (cardIdx : nat) :
  (col < 4)%nat → (cardIdx + 6 ≤ length allCards)%nat →
  deal_columns allCards (col :: cols) columns cardIdx =
    deal_columns allCards cols (columns ++ [dealt_column allCards 6 cardIdx])
      (cardIdx + 6)%nat.
Proof.
  intros Hcol Hlen. pose proof (deal_columns_step allCards col cols columns cardIdx) as H.
  rewrite decide_True in H by done. by apply H.
Qed.

Lemma deal_columns_five (allCards : list Card) (col : nat) (cols : list nat)
    (columns : list (list Card)) (cardIdx : nat) :
  ¬ (col < 4)%nat → (cardIdx + 5 ≤ length allCards)%nat →
  deal_columns allCards (col :: cols) columns cardIdx =
    deal_columns allCards cols (columns ++ [dealt_column allCards 5 cardIdx])
      (cardIdx + 5)%nat.
Proof.
  intros Hcol Hlen. pose proof (deal_columns_step allCards col cols columns cardIdx) as H.
  rewrite decide_False in H by done. by apply H.
Qed.

Lemma lay_out_spec (allCards : list Card) (difficulty : Difficulty) :
  length allCards = 104%nat →
  lay_out allCards difficulty =
    Some {| columns :=
              [dealt_column allCards 6 0; dealt_column allCards 6 6;
               dealt_column allCards 6 12; dealt_column allCards 6 18;
               dealt_column allCards 5 24; dealt_column allCards 5 29;
               dealt_column allCards 5 34; dealt_column allCards 5 39;
               dealt_column allCards 5 44; dealt_column allCards 5 49];
            stock :=
              [take 10 (drop 54 allCards); take 10 (drop 64 allCards);
               take 10 (drop 74 allCards); take 10 (drop 84 allCards);
               take 10 (drop 94 allCards)];
            completedRuns := 0; score := 500; moves := 0;
            difficulty := difficulty |}.
Proof.
  intros Hlen. unfold lay_out.
  change (seq 0 10) with [0; 1; 2; 3; 4; 5; 6; 7; 8; 9]%nat.
  rewrite !deal_columns_six by lia.
  rewrite !deal_columns_five by lia.
  cbn [deal_columns mbind option_bind app Nat.add].
  rewrite Hlen. rewrite !deal_stock_step by lia.
  rewrite deal_stock_done by lia. reflexivity.
Qed.

Lemma swap_Permutation {T} (arr : list T) (i j : nat) : swap arr i j ≡ₚ arr.
Proof.
  unfold swap. destruct (arr !! i) as [x|] eqn:Hx; [|done].
  destruct (arr !! j) as [y|] eqn:Hy; [|done].
  by apply Permutation_insert_swap.
Qed.

Lemma shuffle_Permutation {T} (rnd : nat → nat) (arr : list T) :
  shuffle rnd arr ≡ₚ arr.
Proof.
  unfold shuffle. generalize (length arr - 1)%nat as i. intros i. revert arr.
  induction i as [|i IH]; intros arr; [done|].
  simpl. by rewrite IH, swap_Permutation.
Qed.

Lemma dealt_column_cards (allCards : list Card) (n idx : nat) :
  (fun a => with_faceUp a false) <$> dealt_column allCards n idx =
  (fun a => with_faceUp a false) <$> take n (drop idx allCards).
Proof.
  unfold dealt_column. apply list_eq. intros k.
  rewrite !list_lookup_fmap, lookup_zip_with.
  destruct (decide (k < n)%nat) as [Hk|Hk].
  - rewrite lookup_seq_lt by done. simpl.
    destruct (take n (drop idx allCards) !! k) as [card|]; [|done]. simpl.
    by case_decide.
  - rewrite lookup_seq_ge by lia. simpl. by rewrite lookup_take_ge by lia.
Qed.

Lemma take_drop_join {T} (l : list T) (idx idx' n m : nat) :
  idx' = (idx + n)%nat →
  take n (drop idx l) ++ take m (drop idx' l) = take (n + m) (drop idx l).
Proof. intros ->. by rewrite <- take_take_drop, drop_drop. Qed.

Lemma face_down_id (l : list Card) :
  Forall (fun a => faceUp a = false) l →
  (fun a => with_faceUp a false) <$> l = l.
Proof.
  intros Hdown. induction Hdown as [|a l Ha _ IH]; [done|].
  rewrite fmap_cons, IH. f_equal. destruct a. simpl in *. by subst.
Qed.

Lemma card_count_cons (col : list Card) (cols : list (list Card)) :
  card_count (col :: cols) = len col + card_count cols.
Proof. unfold card_count, len. simpl. rewrite length_app. lia. Qed.

Lemma card_count_nil : card_count [] = 0.
Proof. done. Qed.

(** C7. Whatever the difficulty and the draws of the shuffle, [createGame]
    returns a state whose first four columns hold six cards and whose other
    six columns hold five, in which a card of a column is face-up exactly
    when it is the topmost one, whose stock is five piles of ten face-down
    cards, with no completed run, a score of 500 and no move, and with 104
    cards in all; the pack it shuffles is [8 / numSuits] copies of the 13
    cards of each suit, and the cards laid out are, faces aside, a
    permutation of that pack. *)
Theorem createGame_spec (rnd : nat → nat) (difficulty : Difficulty) :
  ∃ state, createGame rnd difficulty = Some state ∧
    length <$> columns state = [6; 6; 6; 6; 5; 5; 5; 5; 5; 5]%nat ∧
    (∀ col (i : nat) a, col ∈ columns state → col !! i = Some a →
       faceUp a = bool_decide (i = (length col - 1)%nat)) ∧
    length <$> stock state = [10; 10; 10; 10; 10]%nat ∧
    (∀ pile a, pile ∈ stock state → a ∈ pile → faceUp a = false) ∧
    completedRuns state = 0 ∧ score state = 500 ∧ moves state = 0 ∧
    card_count (columns state) + card_count (stock state) = 104 ∧
    length (pack_of difficulty) =
      (8 / num_suits difficulty * (13 * num_suits difficulty))%nat ∧
    (fun a => with_faceUp a false) <$>
      (concat (columns state) ++ concat (stock state)) ≡ₚ pack_of difficulty.
Proof.
  set (allCards := shuffle rnd (pack_of difficulty)).
  assert (length allCards = 104%nat) as Hlen
    by (unfold allCards; by rewrite shuffle_length, pack_of_length).
  assert (Forall (fun a => faceUp a = false) allCards) as Hdown
    by apply shuffle_Forall, pack_of_face_down.
  eexists. split.
  { rewrite createGame_phases. by apply lay_out_spec. }
  cbn [columns stock completedRuns score moves].
  assert (∀ n idx, (idx + n ≤ 104)%nat →
            length (dealt_column allCards n idx) = n) as Hcol.
  { intros n idx ?. apply dealt_column_length. lia. }
  assert (∀ idx, (idx + 10 ≤ 104)%nat →
            length (take 10 (drop idx allCards)) = 10%nat) as Hpile.
  { intros idx ?. rewrite length_take, length_drop. lia. }
  split_and!; try done.
  - cbn [fmap list_fmap]. by rewrite !Hcol by lia.
  - intros col i a Hin Ha.
    assert (∃ n idx, col = dealt_column allCards n idx ∧ (idx + n ≤ 104)%nat)
      as (n & idx & -> & Hn).
    { repeat (apply elem_of_cons in Hin as [->|Hin]; [eexists _, _; split; [done|lia]|]).
      by apply elem_of_nil in Hin. }
    rewrite Hcol by done. by eapply dealt_column_faces.
  - cbn [fmap list_fmap]. by rewrite !Hpile by lia.
  - intros pile a Hin Ha.
    assert (∃ idx, pile = take 10 (drop idx allCards)) as (idx & ->).
    { repeat (apply elem_of_cons in Hin as [->|Hin]; [by eexists|]).
      by apply elem_of_nil in Hin. }
    apply elem_of_take in Ha as (i & Ha & _). rewrite lookup_drop in Ha.
    by eapply (Forall_lookup_1 _ _ _ _ Hdown).
  - rewrite !card_count_cons, !card_count_nil. unfold len.
    rewrite !Hcol, !Hpile by lia. lia.
  - rewrite pack_of_length. by destruct difficulty.
  - cbn [concat]. rewrite !app_nil_r, !fmap_app, !dealt_column_cards, <- !fmap_app.
    rewrite !app_assoc. repeat rewrite take_drop_join by reflexivity.
    rewrite (take_ge (drop 0 allCards)) by (rewrite length_drop; lia).
    rewrite drop_0, face_down_id by done.
    apply shuffle_Permutation.
Qed.

Lemma createGame_spec_witness :
  ∃ state col top, createGame (fun i => (3 * i + 1)%nat) D2 = Some state ∧
    columns state !! 0%nat = Some col ∧ col !! 5%nat = Some top ∧
    faceUp top = true.
Proof.
  destruct (createGame_spec (fun i => (3 * i + 1)%nat) D2)
    as (state & Hnew & Hcols & Hfaces & _).
  destruct (columns state) as [|col cols] eqn:Hc; [done|].
  injection Hcols as Hlen _.
  destruct (lookup_lt_is_Some_2 col 5) as [top Htop]; [lia|].
  exists state, col, top.
  split; [exact Hnew|]. split; [by rewrite Hc|]. split; [exact Htop|].
  rewrite (Hfaces col 5%nat top); [|by left|exact Htop].
  rewrite Hlen. reflexivity.
Defined.

(** ** Columns: face-up contiguity and buried runs *)

Lemma getRankValue_pos (r : Rank) : 1 ≤ getRankValue r.
Proof. destruct r; simpl; lia. Qed.

Lemma run_at_cards (col : list Card) (p k : nat) :
  run_at col p → (k < 13)%nat →
  ∃ a, col !! (p + k)%nat = Some a ∧ faceUp a = true ∧
       getRankValue (rank a) = 13 - Z.of_nat k.
Proof.
  intros [[s Hks] Hface] Hk.
  destruct (Hks k Hk) as (a & Ha & _ & Hr).
  destruct (Hface k Hk) as (a' & Ha' & Hup).
  exists a. simplify_eq. done.
Qed.

Lemma run_at_ext (col col' : list Card) (p : nat) :
  (∀ k : nat, (k < 13)%nat → col !! (p + k)%nat = col' !! (p + k)%nat) →
  run_at col p → run_at col' p.
Proof.
  intros Hext [[s Hks] Hface]. split.
  - exists s. intros k Hk. rewrite <- Hext by done. by apply Hks.
  - intros k Hk. rewrite <- Hext by done. by apply Hface.
Qed.

Lemma run_at_length (col : list Card) (p : nat) :
  run_at col p → (p + 13 ≤ length col)%nat.
Proof.
  intros Hrun. destruct (run_at_cards col p 12 Hrun) as (a & Ha & _); [lia|].
  apply lookup_lt_Some in Ha. lia.
Qed.

Lemma run_at_app_l (col m : list Card) (p : nat) :
  (p + 13 ≤ length col)%nat → run_at (col ++ m) p → run_at col p.
Proof.
  intros Hlen. apply run_at_ext. intros k Hk. apply lookup_app_l. lia.
Qed.

Lemma run_at_take (col : list Card) (n p : nat) :
  run_at (take n col) p → run_at col p.
Proof.
  intros Hrun. pose proof (run_at_length _ _ Hrun) as Hlen.
  rewrite length_take in Hlen.
  revert Hrun. apply run_at_ext. intros k Hk. apply lookup_take_lt. lia.
Qed.

Lemma contiguous_take (col : list Card) (n : nat) :
  face_up_contiguous col → face_up_contiguous (take n col).
Proof.
  intros Hc i j a b Ha Hb. apply lookup_take_Some in Ha as [Ha _].
  apply lookup_take_Some in Hb as [Hb _]. by apply (Hc i j).
Qed.

Lemma contiguous_app (col m : list Card) :
  face_up_contiguous col → Forall (fun a => faceUp a = true) m →
  face_up_contiguous (col ++ m).
Proof.
  intros Hc Hm i j a b Ha Hb Hij Hup.
  apply lookup_app_Some in Hb as [Hb | [_ Hb]].
  - apply lookup_lt_Some in Hb as Hj.
    rewrite lookup_app_l in Ha by lia. by apply (Hc i j a b).
  - by eapply (Forall_lookup_1 _ _ _ _ Hm).
Qed.

Lemma contiguous_reveal (col : list Card) :
  face_up_contiguous col → face_up_contiguous (reveal col).
Proof.
  destruct (snoc_cases col) as [-> | (l & top & ->)]; [done|].
  rewrite reveal_snoc. intros Hc. apply contiguous_app.
  - intros i j a b Ha Hb. apply (Hc i j); by apply lookup_app_l_Some.
  - by apply Forall_singleton.
Qed.

Lemma no_run_reveal (col : list Card) :
  face_up_contiguous col → no_run col → no_run (reveal col).
Proof.
  destruct (snoc_cases col) as [-> | (l & top & ->)]; [done|].
  rewrite reveal_snoc. intros Hc Hno p Hrun.
  destruct (faceUp top) eqn:Htop.
  { rewrite with_faceUp_same in Hrun by done. by apply (Hno p). }
  pose proof (run_at_length _ _ Hrun) as Hlen. rewrite length_app in Hlen.
  simpl in Hlen.
  destruct (decide (p + 13 ≤ length l)%nat) as [Hin|Hout].
  - apply (Hno p). apply run_at_app_l in Hrun; [|done].
    revert Hrun. apply run_at_ext. intros k Hk. symmetry. apply lookup_app_l. lia.
  - destruct (run_at_cards _ p 0 Hrun) as (king & Hking & Hup & _); [lia|].
    rewrite Nat.add_0_r, lookup_app_l in Hking by lia.
    assert (faceUp top = true); [|congruence].
    apply (Hc p (length l) king top); [|by apply list_lookup_middle|lia|done].
    by apply lookup_app_l_Some.
Qed.

Lemma no_buried_app (col m : list Card) :
  no_run col → descending m → no_buried_run (col ++ m).
Proof.
  intros Hno Hdesc p Hrun.
  pose proof (run_at_length _ _ Hrun) as Hlen.
  destruct (decide (p + 13 = length (col ++ m))%nat) as [|Hne]; [done|]. exfalso.
  destruct (decide (p + 13 ≤ length col)%nat) as [Hin|Hout].
  { apply (Hno p). by apply run_at_app_l in Hrun. }
  destruct (run_at_cards _ p 12 Hrun) as (ace & Hace & _ & Hr); [lia|].
  rewrite lookup_app_r in Hace by lia.
  destruct (lookup_lt_is_Some_2 m (S (p + 12 - length col))) as [b Hb].
  { rewrite length_app in Hlen, Hne. lia. }
  pose proof (Hdesc _ _ _ Hace Hb). pose proof (getRankValue_pos (rank b)). lia.
Qed.

Lemma no_run_buried (col : list Card) : no_run col → no_buried_run col.
Proof. intros Hno p Hrun. by apply Hno in Hrun. Qed.

Lemma settle_ok (col : list Card) :
  face_up_contiguous col → no_buried_run col →
  face_up_contiguous (settle col) ∧ no_run (settle col).
Proof.
  intros Hc Hb. unfold settle. destruct (has_run col) eqn:Hrun.
  - split; [by apply contiguous_reveal, contiguous_take|].
    apply no_run_reveal; [by apply contiguous_take|].
    intros p Hp. pose proof (run_at_length _ _ Hp) as Hlen.
    rewrite length_take in Hlen. apply run_at_take, Hb in Hp. lia.
  - split; [done|]. intros p Hp. pose proof (Hb p Hp) as Hlen.
    assert (has_run col = true); [|congruence].
    apply has_run_iff. split; [lia|].
    by replace (length col - 13)%nat with p by lia.
Qed.

(** ** Card counts *)

Lemma card_count_app (xs ys : list (list Card)) :
  card_count (xs ++ ys) = card_count xs + card_count ys.
Proof. unfold card_count. rewrite concat_app, length_app. lia. Qed.

Lemma card_count_insert (cols : list (list Card)) (k : nat) (old new : list Card) :
  cols !! k = Some old →
  card_count (<[k := new]> cols) = card_count cols - len old + len new.
Proof.
  intros Hk. rewrite insert_take_drop by by eapply lookup_lt_Some.
  rewrite <- (take_drop_middle cols k old Hk) at 3.
  rewrite !card_count_app, !card_count_cons. lia.
Qed.

Lemma reveal_length (col : list Card) : length (reveal col) = length col.
Proof.
  destruct (snoc_cases col) as [-> | (l & top & ->)]; [done|].
  by rewrite reveal_snoc, !length_app.
Qed.

Lemma runs_in_nonneg (cols : list (list Card)) : 0 ≤ runs_in cols.
Proof. unfold runs_in. lia. Qed.

Lemma card_count_settle (cols : list (list Card)) :
  card_count (map settle cols) = card_count cols - 13 * runs_in cols.
Proof.
  induction cols as [|col cols IH]; [done|].
  change (map settle (col :: cols)) with (settle col :: map settle cols).
  rewrite !card_count_cons, runs_in_cons, IH. unfold settle.
  destruct (has_run col) eqn:Hrun; [|lia].
  apply has_run_iff in Hrun as [Hlen _]. unfold len.
  rewrite reveal_length, length_take. lia.
Qed.

Lemma card_count_deal (cols : list (list Card)) (pile : list Card) :
  (length cols ≤ length pile)%nat →
  card_count (zip_with (fun col card => col ++ [with_faceUp card true]) cols pile)
    = card_count cols + len cols.
Proof.
  revert pile. induction cols as [|col cols IH]; intros pile Hlen; [done|].
  destruct pile as [|card pile]; [simpl in Hlen; lia|].
  simpl in Hlen. cbn [zip_with]. rewrite !card_count_cons, IH by lia.
  unfold len. rewrite length_app. simpl. lia.
Qed.

Lemma card_count_zero (cols : list (list Card)) :
  card_count cols = 0 ↔ Forall (fun col => col = []) cols.
Proof.
  induction cols as [|col cols IH].
  - split; [constructor | done].
  - rewrite card_count_cons, Forall_cons. unfold len.
    assert (0 ≤ card_count cols) by (unfold card_count; lia). split.
    + intros Hz. split; [destruct col; [done | simpl in Hz; lia]|].
      apply IH. lia.
    + intros [-> Hall]. apply IH in Hall. simpl. lia.
Qed.

(** ** The invariant of a game *)

Lemma removeCompleteRuns_inv (state : GameState) :
  length (columns state) = 10%nat →
  Forall (fun pile => length pile = 10%nat) (stock state) →
  card_count (columns state) + card_count (stock state)
    + 13 * completedRuns state = 104 →
  0 ≤ completedRuns state →
  Forall (fun col => face_up_contiguous col ∧ no_buried_run col) (columns state) →
  ∃ state', removeCompleteRuns state = Ok state' ∧ table_ok state'.
Proof.
  intros Hlen Hpiles Hcount Hcr Hcols. rewrite removeCompleteRuns_spec.
  eexists. split; [done|]. unfold table_ok. simpl.
  pose proof (runs_in_nonneg (columns state)).
  split_and!; [by rewrite length_map | done | | lia |].
  - rewrite card_count_settle. lia.
  - apply Forall_fmap. eapply Forall_impl; [exact Hcols|].
    intros col [Hc Hb]. by apply settle_ok.
Qed.

Lemma valid_from_face_up (cards : list Card) (i : Z) :
  0 ≤ i → valid_from cards i →
  Forall (fun a => faceUp a = true) (drop (Z.to_nat i) cards).
Proof.
  intros Hi [Hup _]. apply Forall_lookup. intros k a Ha.
  rewrite lookup_drop in Ha. apply (Hup (Z.of_nat (Z.to_nat i + k))); [lia|].
  by rewrite at_nat.
Qed.

Lemma valid_from_descending (cards : list Card) (i : Z) :
  0 ≤ i → valid_from cards i → descending (drop (Z.to_nat i) cards).
Proof.
  intros Hi [_ Hadj] k a b Ha Hb. rewrite lookup_drop in Ha, Hb.
  apply (Hadj (Z.of_nat (Z.to_nat i + k)) a b); [lia | by rewrite at_nat |].
  replace (Z.of_nat (Z.to_nat i + k) + 1) with (Z.of_nat (Z.to_nat i + S k)) by lia.
  by rewrite at_nat.
Qed.

Lemma moveCards_inv (state state' : GameState) (src i tgt : Z) :
  table_ok state → moveCards state src i tgt = Ok state' → table_ok state'.
Proof.
  intros Hok Hmove.
  destruct (decide (src = tgt)) as [Heq|Hne].
  { unfold moveCards in Hmove. rewrite decide_True in Hmove by done.
    by injection Hmove as <-. }
  destruct (canMoveCards (at_ (columns state) src) i (at_ (columns state) tgt))
    as [[|]|] eqn:Hcan.
  2,3: unfold moveCards in Hmove; rewrite decide_False, Hcan in Hmove by done.
  2: by injection Hmove as <-.
  2: done.
  destruct (canMoveCards_true_defined _ _ _ Hcan) as (srcCol & tgtCol & Hsrc & Htgt).
  rewrite Hsrc, Htgt in Hcan.
  rewrite (moveCards_accepted state src i tgt srcCol tgtCol) in Hmove by done.
  destruct (canMoveCards_cases srcCol tgtCol i) as (b & Hb & Hiff).
  rewrite Hcan in Hb. injection Hb as <-.
  destruct Hiff as [Hiff _]. destruct (Hiff eq_refl) as (Hi & Hvalid & _).
  destruct Hok as (Hlen & Hpiles & Hcount & Hcr & Hcols).
  apply at_Some in Hsrc as [Hs0 Hsrc]. apply at_Some in Htgt as [Ht0 Htgt].
  pose proof (Forall_lookup_1 _ _ _ _ Hcols Hsrc) as [Hsc Hsn].
  pose proof (Forall_lookup_1 _ _ _ _ Hcols Htgt) as [Htc Htn].
  destruct (removeCompleteRuns_inv (after_move state src i tgt srcCol tgtCol))
    as (final & Hfinal & Hinv).
  - simpl. unfold set_at. rewrite !decide_True by done. by rewrite !length_insert.
  - done.
  - simpl. unfold set_at. rewrite !decide_True by done.
    rewrite (card_count_insert _ _ tgtCol).
    2:{ rewrite list_lookup_insert_ne by lia. done. }
    rewrite (card_count_insert _ _ srcCol) by done.
    unfold len in *. rewrite reveal_length, length_app, length_take, length_drop.
    lia.
  - done.
  - simpl. unfold set_at. rewrite !decide_True by done.
    apply Forall_insert; [apply Forall_insert|].
    + eapply Forall_impl; [exact Hcols|]. intros col [? ?].
      split; [done | by apply no_run_buried].
    + split; [by apply contiguous_reveal, contiguous_take|].
      apply no_run_buried, no_run_reveal; [by apply contiguous_take|].
      intros p Hp. by apply run_at_take, Hsn in Hp.
    + split.
      * apply contiguous_app; [done|]. apply valid_from_face_up; [lia|done].
      * apply no_buried_app; [done|]. apply valid_from_descending; [lia|done].
  - rewrite Hfinal in Hmove. by injection Hmove as <-.
Qed.

Lemma dealFromStock_inv (state state' : GameState) :
  table_ok state → dealFromStock state = Ok (Some state') → table_ok state'.
Proof.
  intros (Hlen & Hpiles & Hcount & Hcr & Hcols) Hdeal.
  destruct (snoc_cases (stock state)) as [Hs | (rest & pile & Hs)].
  { unfold dealFromStock in Hdeal. rewrite Hs in Hdeal. done. }
  destruct (decide ([] ∈ columns state)) as [Hin|Hfull].
  { unfold dealFromStock in Hdeal. apply has_empty_column in Hin.
    rewrite Hin in Hdeal. by case_decide. }
  rewrite Hs in Hpiles. apply Forall_app in Hpiles as [Hrest Hpile].
  rewrite Forall_singleton in Hpile.
  rewrite (dealFromStock_dealt state rest pile) in Hdeal by (done || lia).
  destruct (removeCompleteRuns_inv (after_deal state rest pile))
    as (final & Hfinal & Hinv).
  - simpl. rewrite length_zip_with. lia.
  - done.
  - simpl. rewrite card_count_deal by lia.
    rewrite Hs, card_count_app, card_count_cons, card_count_nil in Hcount.
    unfold len in *. lia.
  - done.
  - simpl. apply Forall_lookup. intros k col Hcol.
    apply lookup_zip_with_Some in Hcol as (col0 & card & -> & Hcol0 & _).
    pose proof (Forall_lookup_1 _ _ _ _ Hcols Hcol0) as [Hc Hn].
    split.
    + apply contiguous_app; [done|]. by apply Forall_singleton.
    + apply no_buried_app; [done|]. intros j a b _ Hb. done.
  - rewrite Hfinal in Hdeal. simpl in Hdeal. by injection Hdeal as <-.
Qed.

Lemma dealt_column_ok (allCards : list Card) (n idx : nat) :
  (n ≤ 6)%nat → (idx + n ≤ length allCards)%nat →
  Forall (fun a => faceUp a = false) allCards →
  face_up_contiguous (dealt_column allCards n idx) ∧
  no_run (dealt_column allCards n idx).
Proof.
  intros Hn Hlen Hdown. split.
  - intros i j a b Ha Hb Hij Hup.
    rewrite (dealt_column_faces _ _ _ Hdown i a Ha) in Hup.
    apply bool_decide_eq_true in Hup. apply lookup_lt_Some in Hb.
    rewrite dealt_column_length in Hb by done. lia.
  - intros p Hp. apply run_at_length in Hp.
    rewrite dealt_column_length in Hp by done. lia.
Qed.

Lemma createGame_inv (rnd : nat → nat) (difficulty : Difficulty)
    (state : GameState) :
  createGame rnd difficulty = Some state → table_ok state.
Proof.
  set (allCards := shuffle rnd (pack_of difficulty)).
  assert (length allCards = 104%nat) as Hlen
    by (unfold allCards; by rewrite shuffle_length, pack_of_length).
  assert (Forall (fun a => faceUp a = false) allCards) as Hdown
    by apply shuffle_Forall, pack_of_face_down.
  rewrite createGame_phases, (lay_out_spec _ _ Hlen). intros [= <-].
  unfold table_ok. cbn [columns stock completedRuns].
  assert (∀ idx, (idx + 10 ≤ 104)%nat →
            length (take 10 (drop idx allCards)) = 10%nat) as Hpile.
  { intros idx ?. rewrite length_take, length_drop. lia. }
  split_and!; [done | | | done |].
  - repeat (apply Forall_cons; split; [apply Hpile; lia|]). constructor.
  - rewrite !card_count_cons, !card_count_nil. unfold len.
    rewrite !dealt_column_length, !Hpile by lia. lia.
  - repeat (apply Forall_cons; split; [apply dealt_column_ok; (done || lia)|]).
    constructor.
Qed.

Lemma reachable_ok (state : GameState) : reachable state → table_ok state.
Proof.
  induction 1 as [rnd d state Hnew | state src i tgt state' _ IH Hmove
                 | state state' _ IH Hdeal].
  - by eapply createGame_inv.
  - by eapply moveCards_inv.
  - by eapply dealFromStock_inv.
Qed.

(** ** Reachable states *)

(** C4. In every state reachable from [createGame] by [moveCards] and
    [dealFromStock], the cards of the columns, the cards of the stock and
    13 cards per completed run add up to 104; the number of completed runs
    lies between 0 and 8; [isGameWon] holds exactly when it is 8; and it is
    8 exactly when every column and the stock are empty. *)
Theorem card_count_invariant (state : GameState) :
  reachable state →
  card_count (columns state) + card_count (stock state)
    + 13 * completedRuns state = 104 ∧
  0 ≤ completedRuns state ≤ 8 ∧
  (isGameWon state = true ↔ completedRuns state = 8) ∧
  (completedRuns state = 8 ↔
     (∀ col, col ∈ columns state → col = []) ∧ stock state = []).
Proof.
  intros (_ & Hpiles & Hcount & Hcr & _)%reachable_ok.
  assert (0 ≤ card_count (columns state)) by (unfold card_count; lia).
  assert (0 ≤ card_count (stock state)) by (unfold card_count; lia).
  split_and!; [done | done | lia | |].
  - unfold isGameWon. apply bool_decide_eq_true.
  - split.
    + intros Hwon.
      assert (card_count (columns state) = 0) as Hc by lia.
      assert (card_count (stock state) = 0) as Hs by lia.
      apply card_count_zero in Hc, Hs. split.
      * intros col Hin. by apply (proj1 (Forall_forall _ _) Hc).
      * destruct (stock state) as [|pile piles]; [done|].
        apply Forall_cons in Hpiles as [Hlen _]. apply Forall_cons in Hs as [-> _].
        done.
    + intros [Hcols Hstock].
      assert (card_count (columns state) = 0) as Hc
        by by apply card_count_zero, Forall_forall.
      rewrite Hstock, card_count_nil in Hcount. lia.
Qed.

Lemma card_count_invariant_witness :
  ∃ state state', createGame (fun _ => 0%nat) D1 = Some state ∧
    dealFromStock state = Ok (Some state') ∧
    card_count (columns state') + card_count (stock state')
      + 13 * completedRuns state' = 104.
Proof.
  destruct (createGame (fun _ => 0%nat) D1) as [state|] eqn:Hnew.
  - destruct (dealFromStock state) as [[state'|]|] eqn:Hdeal.
    + exists state, state'. split_and!; [done | done |].
      apply (card_count_invariant state').
      eapply reach_deal; [|exact Hdeal]. by eapply reach_new.
    + vm_compute in Hnew. injection Hnew as <-. vm_compute in Hdeal.
      discriminate Hdeal.
    + vm_compute in Hnew. injection Hnew as <-. vm_compute in Hdeal.
      discriminate Hdeal.
  - vm_compute in Hnew. discriminate Hnew.
Defined.





(** ** The hint search *)

Lemma for_loop_search {R} (n : nat) (i : Z) (body : Z → result (option R))
    (Q : Z → R → Prop) (N : Z → Prop) :
  (∀ k : nat, (k < n)%nat →
     (body (i + Z.of_nat k) = Ok None ∧ N (i + Z.of_nat k)) ∨
     (∃ x, body (i + Z.of_nat k) = Ok (Some x) ∧ Q (i + Z.of_nat k) x)) →
  (for_loop n i body = Ok None ∧ ∀ k : nat, (k < n)%nat → N (i + Z.of_nat k)) ∨
  (∃ (k : nat) x, (k < n)%nat ∧ for_loop n i body = Ok (Some x) ∧
     Q (i + Z.of_nat k) x ∧ ∀ j : nat, (j < k)%nat → N (i + Z.of_nat j)).
Proof.
  revert i. induction n as [|n IH]; intros i Hbody.
  - left. split; [done | intros; lia].
  - assert (∀ k : nat, i + 1 + Z.of_nat k = i + Z.of_nat (S k)) as Hshift
      by (intros; lia).
    destruct (Hbody O) as [[Hb HN] | (x & Hb & HQ)]; [lia | |];
      rewrite Z.add_0_r in *.
    + destruct (IH (i + 1)) as [[Hl Hnone] | (k & x & Hk & Hl & HQ & Hbefore)].
      * intros k Hk. rewrite Hshift. apply Hbody. lia.
      * left. split; [simpl; by rewrite Hb|].
        intros [|k] Hk; [by rewrite Z.add_0_r|]. rewrite <- Hshift. apply Hnone. lia.
      * right. exists (S k), x. rewrite <- Hshift.
        split_and!; [lia | simpl; by rewrite Hb | done |].
        intros [|j] Hj; [by rewrite Z.add_0_r|]. rewrite <- Hshift. apply Hbefore. lia.
    + right. exists O, x. rewrite Z.add_0_r.
      split_and!; [lia | simpl; by rewrite Hb | done | intros; lia].
Qed.

Section Search.

Variable cols : list (list Card).
Variable target : Z → list Card → Z → Z → result (option Hint).
Variable cand : Z → Z → Z → Prop.
Variable mk : Z → Z → Z → Hint.

Hypothesis cand_range : ∀ src i tgt, cand src i tgt →
  ∃ col, at_ cols src = Some col ∧ 0 ≤ i < len col ∧ valid_from col i ∧
         0 ≤ tgt < len cols.

Hypothesis target_spec : ∀ src col i tgt,
  at_ cols src = Some col → 0 ≤ i < len col → 0 ≤ tgt < len cols →
  (target src col i tgt = Ok None ∧ ¬ cand src i tgt) ∨
  (target src col i tgt = Ok (Some (mk src i tgt)) ∧ cand src i tgt).

Lemma search_targets (src : Z) (col : list Card) (i : Z) :
  at_ cols src = Some col → 0 ≤ i < len col →
  (for_range 0 (len cols) (target src col i) = Ok None ∧
   ∀ tgt, ¬ cand src i tgt) ∨
  (∃ tgt, for_range 0 (len cols) (target src col i) = Ok (Some (mk src i tgt)) ∧
     cand src i tgt ∧ ∀ tgt', tgt' < tgt → ¬ cand src i tgt').
Proof.
  intros Hcol Hi. unfold for_range.
  destruct (for_loop_search (Z.to_nat (len cols - 0)) 0 (target src col i)
              (fun tgt h => h = mk src i tgt ∧ cand src i tgt)
              (fun tgt => ¬ cand src i tgt))
    as [[Hl Hnone] | (k & h & Hk & Hl & [-> Hc] & Hbefore)].
  - intros k Hk.
    destruct (target_spec src col i (0 + Z.of_nat k) Hcol Hi) as [[? ?]|[? ?]];
      [lia | by left | right; eauto].
  - left. split; [done|]. intros tgt Hc.
    destruct (cand_range _ _ _ Hc) as (_ & _ & _ & _ & Ht).
    apply (Hnone (Z.to_nat tgt)); [lia|].
    by replace (0 + Z.of_nat (Z.to_nat tgt)) with tgt by lia.
  - right. exists (0 + Z.of_nat k). split_and!; [done | done |].
    intros tgt' Hlt Hc'.
    destruct (cand_range _ _ _ Hc') as (_ & _ & _ & _ & Ht).
    apply (Hbefore (Z.to_nat tgt')); [lia|].
    by replace (0 + Z.of_nat (Z.to_nat tgt')) with tgt' by lia.
Qed.

Lemma search_cards (src : Z) (col : list Card) :
  at_ cols src = Some col →
  let body := fun cardIdx =>
    up ← field faceUp (at_ col cardIdx);
    if negb up then Ok None else
    valid ← isValidSequence col cardIdx;
    if negb valid then Ok None else
    for_range 0 (len cols) (target src col cardIdx) in
  (for_range 0 (len col) body = Ok None ∧ ∀ i tgt, ¬ cand src i tgt) ∨
  (∃ i tgt, for_range 0 (len col) body = Ok (Some (mk src i tgt)) ∧
     cand src i tgt ∧
     ∀ i' tgt', i' < i ∨ (i' = i ∧ tgt' < tgt) → ¬ cand src i' tgt').
Proof.
  intros Hcol body. unfold for_range.
  assert (∀ i tgt, cand src i tgt → 0 ≤ i < len col ∧ valid_from col i) as Hcand.
  { intros i tgt Hc. destruct (cand_range _ _ _ Hc) as (col' & ? & ? & ? & _).
    by simplify_eq. }
  destruct (for_loop_search (Z.to_nat (len col - 0)) 0 body
              (fun i h => ∃ tgt, h = mk src i tgt ∧ cand src i tgt ∧
                           ∀ tgt', tgt' < tgt → ¬ cand src i tgt')
              (fun i => ∀ tgt, ¬ cand src i tgt))
    as [[Hl Hnone] | (k & h & Hk & Hl & (tgt & -> & Hc & Hlt) & Hbefore)].
  - intros k Hk. set (i := 0 + Z.of_nat k). unfold body.
    destruct (at_in_range col i) as (a & Ha & _); [lia|]. rewrite Ha. simpl.
    destruct (faceUp a) eqn:Hup; simpl.
    2:{ left. split; [done|]. intros tgt Hc.
        destruct (Hcand _ _ Hc) as [_ [Hface _]].
        rewrite (Hface i a) in Hup; [done | lia | done]. }
    destruct (isValidSequence_spec col i) as (v & -> & Hv); [lia|]. simpl.
    destruct v; simpl.
    2:{ left. split; [done|]. intros tgt Hc.
        destruct (Hcand _ _ Hc) as [_ Hvalid]. by apply Hv in Hvalid. }
    destruct (search_targets src col i Hcol) as [[-> Hno] | (tgt & -> & ? & ?)];
      [lia | by left | right; eauto 10].
  - left. split; [done|]. intros i tgt Hc.
    destruct (Hcand _ _ Hc) as [Hi _].
    apply (Hnone (Z.to_nat i) ltac:(lia) tgt).
    by replace (0 + Z.of_nat (Z.to_nat i)) with i by lia.
  - right. exists (0 + Z.of_nat k), tgt. split_and!; [done | done |].
    intros i' tgt' [Hi' | [-> Ht']] Hc'; [|by apply (Hlt tgt')].
    destruct (Hcand _ _ Hc') as [Hi _].
    apply (Hbefore (Z.to_nat i') ltac:(lia) tgt').
    by replace (0 + Z.of_nat (Z.to_nat i')) with i' by lia.
Qed.

Lemma searchMoves_spec :
  (searchMoves cols target = Ok None ∧ ∀ src i tgt, ¬ cand src i tgt) ∨
  (∃ src i tgt, searchMoves cols target = Ok (Some (mk src i tgt)) ∧
     first_move cand src i tgt).
Proof.
  unfold searchMoves.
  assert (∀ src i tgt, cand src i tgt → 0 ≤ src < len cols) as Hcand.
  { intros src i tgt Hc. destruct (cand_range _ _ _ Hc) as (col & Hcol & _).
    by eapply at_Some_lt. }
  match goal with
  | |- (for_range ?lo ?hi ?body0 = _ ∧ _) ∨ _ =>
      destruct (for_loop_search (Z.to_nat (hi - lo)) lo body0
                  (fun src h => ∃ i tgt, h = mk src i tgt ∧ cand src i tgt ∧
                     ∀ i' tgt', i' < i ∨ (i' = i ∧ tgt' < tgt) →
                                ¬ cand src i' tgt')
                  (fun src => ∀ i tgt, ¬ cand src i tgt))
        as [[Hl Hnone] | (k & h & Hk & Hl & (i & tgt & -> & Hc & Hlt) & Hbefore)]
  end.
  - intros k Hk. set (src := 0 + Z.of_nat k).
    destruct (at_in_range cols src) as (col & Hcol & _); [lia|].
    rewrite Hcol, defined_Some, bind_Ok.
    destruct (search_cards src col Hcol) as [[-> Hno] | (i & tgt & -> & ? & ?)];
      [by left | right; eauto 10].
  - left. split; [exact Hl|]. intros src i tgt Hc.
    pose proof (Hcand _ _ _ Hc) as Hs.
    apply (Hnone (Z.to_nat src) ltac:(lia) i tgt).
    by replace (0 + Z.of_nat (Z.to_nat src)) with src by lia.
  - right. exists (0 + Z.of_nat k), i, tgt. split; [exact Hl|]. split; [done|].
    intros src' i' tgt' [Hs' | [-> Hrest]] Hc'; [|by apply (Hlt i' tgt')].
    pose proof (Hcand _ _ _ Hc') as Hs.
    apply (Hbefore (Z.to_nat src') ltac:(lia) i' tgt').
    by replace (0 + Z.of_nat (Z.to_nat src')) with src' by lia.
Qed.

End Search.

Lemma legal_move_range (cols : list (list Card)) (src i tgt : Z) :
  legal_move cols src i tgt →
  ∃ col tcol, at_ cols src = Some col ∧ at_ cols tgt = Some tcol ∧
    0 ≤ i < len col ∧ valid_from col i ∧ 0 ≤ tgt < len cols.
Proof.
  intros [_ Hcan].
  destruct (canMoveCards_true_defined _ _ _ Hcan) as (col & tcol & Hcol & Htcol).
  rewrite Hcol, Htcol in Hcan.
  destruct (canMoveCards_cases col tcol i) as (b & Hb & Hiff).
  rewrite Hcan in Hb. injection Hb as <-.
  destruct Hiff as [Hiff _]. destruct (Hiff eq_refl) as (Hi & Hvalid & _).
  exists col, tcol. split_and!; try done; try lia; by eapply at_Some_lt.
Qed.

Lemma sameSuitTarget_spec (cols : list (list Card)) (src : Z) (col : list Card)
    (i tgt : Z) :
  at_ cols src = Some col → 0 ≤ i < len col → 0 ≤ tgt < len cols →
  (sameSuitTarget cols src col i tgt = Ok None ∧ ¬ same_suit_move cols src i tgt) ∨
  (sameSuitTarget cols src col i tgt = Ok (Some (HintSameSuit src i tgt)) ∧
   same_suit_move cols src i tgt).
Proof.
  intros Hcol Hi Ht. unfold sameSuitTarget.
  case_decide as Hsame.
  { left. split; [done|]. intros [[Hne _] _]. done. }
  destruct (at_in_range cols tgt Ht) as (tcol & Htcol & _). rewrite Htcol. simpl.
  case_decide as Hempty.
  { left. split; [done|].
    intros (_ & col' & tcol' & a & top & _ & Htc & _ & Hlast & _).
    rewrite Htcol in Htc. injection Htc as <-.
    destruct tcol; [done | unfold len in Hempty; simpl in Hempty; lia]. }
  destruct (canMoveCards_cases col tcol i) as (b & Hb & _). rewrite Hb. simpl.
  destruct b.
  2:{ left. split; [done|]. intros [[_ Hcan] _].
      rewrite Hcol, Htcol in Hcan. congruence. }
  rewrite at_top.
  destruct (last tcol) as [top|] eqn:Htop.
  2:{ apply last_None in Htop. by subst tcol. }
  destruct (at_in_range col i Hi) as (a & Ha & _). rewrite Ha. simpl.
  case_decide as Hsuit.
  - right. split; [done|]. split.
    + split; [done|]. by rewrite Hcol, Htcol.
    + by exists col, tcol, a, top.
  - left. split; [done|].
    intros (_ & col' & tcol' & a' & top' & ? & ? & ? & ? & ?). by simplify_eq.
Qed.

Lemma anyTarget_spec (cols : list (list Card)) (src : Z) (col : list Card)
    (i tgt : Z) :
  at_ cols src = Some col → 0 ≤ i < len col → 0 ≤ tgt < len cols →
  (anyTarget cols src col i tgt = Ok None ∧ ¬ any_move cols src i tgt) ∨
  (anyTarget cols src col i tgt = Ok (Some (HintAnyMove src i tgt)) ∧
   any_move cols src i tgt).
Proof.
  intros Hcol Hi Ht. unfold anyTarget.
  case_decide as Hsame.
  { left. split; [done|]. intros [[Hne _] _]. done. }
  destruct (at_in_range cols tgt Ht) as (tcol & Htcol & _). rewrite Htcol.
  destruct (canMoveCards_cases col tcol i) as (b & Hb & _). rewrite Hb. simpl.
  destruct b.
  2:{ left. split; [done|]. intros [[_ Hcan] _].
      rewrite Hcol, Htcol in Hcan. congruence. }
  case_decide as Hlen.
  - right. split; [done|]. split.
    + split; [done|]. by rewrite Hcol, Htcol.
    + exists tcol. split; [done|]. intros ->. unfold len in Hlen. simpl in Hlen. lia.
  - left. split; [done|]. intros (_ & tcol' & Htc & Hne).
    rewrite Htcol in Htc. injection Htc as <-.
    destruct tcol; [done | unfold len in Hlen; simpl in Hlen; lia].
Qed.

(** C9. The hint search always reports something. It reports a same-suit
    move exactly for the first move, in the order source column, card
    index, target column, that is legal, goes to a non-empty column and
    meets there a top card of the suit of the moving sequence. If there is
    no such move it reports the first legal move to a non-empty column.
    If there is none either, it advises a deal when the stock is not empty
    and reports that no move is available when it is. A legal move starts
    at a face-up card that begins a valid sequence ([legal_move_range]),
    and a move to an empty column is never reported. *)
Theorem findHint_spec (state : GameState) :
  ∃ h, findHint state = Ok h ∧
    match h with
    | HintSameSuit src i tgt =>
        first_move (same_suit_move (columns state)) src i tgt
    | HintAnyMove src i tgt =>
        (∀ src' i' tgt', ¬ same_suit_move (columns state) src' i' tgt') ∧
        first_move (any_move (columns state)) src i tgt
    | HintDeal =>
        (∀ src i tgt, ¬ any_move (columns state) src i tgt) ∧ stock state ≠ []
    | HintNoMoves =>
        (∀ src i tgt, ¬ any_move (columns state) src i tgt) ∧ stock state = []
    end.
Proof.
  unfold findHint.
  destruct (searchMoves_spec (columns state) (sameSuitTarget (columns state))
              (same_suit_move (columns state)) HintSameSuit)
    as [[-> Hno1] | (src & i & tgt & -> & Hfirst)].
  - intros src i tgt [Hlegal _].
    destruct (legal_move_range _ _ _ _ Hlegal) as (col & _ & ? & _ & ? & ? & ?).
    by exists col.
  - apply sameSuitTarget_spec.
  - simpl.
    destruct (searchMoves_spec (columns state) (anyTarget (columns state))
                (any_move (columns state)) HintAnyMove)
      as [[-> Hno2] | (src & i & tgt & -> & Hfirst)].
    + intros src i tgt [Hlegal _].
      destruct (legal_move_range _ _ _ _ Hlegal) as (col & _ & ? & _ & ? & ? & ?).
      by exists col.
    + apply anyTarget_spec.
    + simpl. case_decide as Hstock.
      * exists HintDeal. split_and!; [done | done |].
        intros Hs. rewrite Hs in Hstock. by unfold len in Hstock.
      * exists HintNoMoves. split_and!; [done | done |].
        destruct (stock state); [done | unfold len in Hstock; simpl in Hstock; lia].
    + simpl. by exists (HintAnyMove src i tgt).
  - simpl. by exists (HintSameSuit src i tgt).
Qed.

Lemma findHint_spec_witness :
  findHint small_table = Ok (HintSameSuit 0 2 3) ∧
  first_move (same_suit_move (columns small_table)) 0 2 3.
Proof.
  split; [reflexivity|].
  destruct (findHint_spec small_table) as (h & Hh & Hfirst).
  vm_compute in Hh. injection Hh as <-. exact Hfirst.
Defined.

(** ** The functions at work *)

Example valid_single : isValidSequence [up Spades R7] 0 = Ok true.
Proof. reflexivity. Qed.

Example invalid_face_down :
  isValidSequence [down Spades R7; up Spades R6] 0 = Ok false.
Proof. reflexivity. Qed.

Example invalid_rank_gap : isValidSequence [up Spades R7; up Spades R5] 0 = Ok false.
Proof. reflexivity. Qed.

Example invalid_suit_break : isValidSequence [up Spades R7; up Hearts R6] 0 = Ok false.
Proof. reflexivity. Qed.

Example move_to_empty : canMoveCards (Some [up Spades R7]) 0 (Some []) = Ok true.
Proof. reflexivity. Qed.

Example move_across_suits :
  canMoveCards (Some [up Spades R7]) 0 (Some [up Hearts R8]) = Ok true.
Proof. reflexivity. Qed.

Example move_wrong_rank :
  canMoveCards (Some [up Spades R7]) 0 (Some [up Diamonds R6]) = Ok false.
Proof. reflexivity. Qed.

Example move_broken_sequence :
  canMoveCards (Some [up Spades R7; up Hearts R6]) 0 (Some []) = Ok false.
Proof. reflexivity. Qed.

Example run_found :
  checkCompleteRun (down Hearts R3 :: full_run Spades) =
    Ok {| found := true; startIndex := 1 |}.
Proof. reflexivity. Qed.

Example run_completed_by_move :
  ∃ state', moveCards nearly_done 1 1 0 = Ok state' ∧
    columns state' = [[]; [up Hearts R2]] ∧ completedRuns state' = 1 ∧
    score state' = 599 ∧ moves state' = 1.
Proof. eexists. split; [reflexivity|]. done. Qed.

Example hint_on_small_table : findHint small_table = Ok (HintSameSuit 0 2 3).
Proof. reflexivity. Qed.

Example hint_deal : findHint full_table = Ok HintDeal.
Proof. reflexivity. Qed.

(** * Further properties of the code *)

(** ** [createDeck] and [shuffle] *)

Lemma createDeck_ranks (suit : Suit) (ranks : list Rank) (deck : list Card)
    (n : nat) :
  foldl (fun '(deck, idCounter) rank =>
           (deck ++ [{| id := deck_card_id idCounter suit rank;
                        suit := suit; rank := rank; faceUp := false |}],
            (idCounter + 1)%nat))
        (deck, n) ranks =
    (deck ++ imap (fun j r => deck_card (n + j) (suit, r)) ranks,
     (n + length ranks)%nat).
Proof.
  revert deck n. induction ranks as [|r ranks IH]; intros deck n.
  - simpl. rewrite app_nil_r. do 2 f_equal. lia.
  - cbn [foldl]. rewrite IH, imap_cons, <- app_assoc. simpl.
    rewrite Nat.add_0_r. f_equal; [|lia]. do 2 f_equal.
    apply imap_ext. intros j r' _. simpl. f_equal. lia.
Qed.

Lemma createDeck_suits (suits : list Suit) (deck : list Card) (n : nat) :
  foldl (fun '(deck, idCounter) suit =>
     foldl (fun '(deck, idCounter) rank =>
       (deck ++ [{| id := deck_card_id idCounter suit rank;
                    suit := suit; rank := rank; faceUp := false |}],
        (idCounter + 1)%nat))
       (deck, idCounter) RANKS)
     (deck, n) suits =
    (deck ++ imap (fun j sr => deck_card (n + j) sr)
               (suits ≫= fun s => pair s <$> RANKS),
     (n + 13 * length suits)%nat).
Proof.
  revert deck n. induction suits as [|s suits IH]; intros deck n.
  - simpl. rewrite app_nil_r. do 2 f_equal. lia.
  - cbn [foldl]. rewrite createDeck_ranks, IH.
    rewrite bind_cons, imap_app, <- app_assoc, imap_fmap.
    f_equal; [|simpl; lia]. f_equal. f_equal.
    apply imap_ext. intros j sr _. cbn beta. f_equal. rewrite length_fmap. lia.
Qed.

(** X1. [createDeck] returns, suit after suit in the order given, the
    thirteen ranks from Ace up to King, every card face-down and the
    cards numbered from 0 in their ids; so it returns 13 cards per suit. *)
Theorem createDeck_cards (suits : list Suit) :
  createDeck suits = imap deck_card (suits ≫= fun s => pair s <$> RANKS) ∧
  length (createDeck suits) = (13 * length suits)%nat ∧
  Forall (fun a => faceUp a = false) (createDeck suits).
Proof.
  assert (createDeck suits = imap deck_card (suits ≫= fun s => pair s <$> RANKS))
    as Hdeck.
  { unfold createDeck. by rewrite createDeck_suits. }
  split; [done|]. rewrite Hdeck. split.
  - rewrite length_imap. clear Hdeck. induction suits as [|s suits IH]; [done|].
    rewrite bind_cons, length_app, IH, length_fmap. simpl. lia.
  - apply Forall_lookup. intros i a Ha.
    apply list_lookup_imap_Some in Ha as (sr & _ & ->). done.
Qed.

(** X2. Whatever the draws, [shuffle] returns a permutation of the array
    it is given: the same elements, each as often as before, and so the
    same number of them; an array of at most one element comes back as it
    is. *)
Theorem shuffle_permutes {T} (rnd : nat → nat) (array : list T) :
  shuffle rnd array ≡ₚ array ∧
  length (shuffle rnd array) = length array ∧
  ((length array ≤ 1)%nat → shuffle rnd array = array).
Proof.
  split_and!.
  - apply shuffle_Permutation.
  - by rewrite shuffle_Permutation.
  - intros Hshort. unfold shuffle.
    by replace (length array - 1)%nat with 0%nat by lia.
Qed.

Lemma shuffle_permutes_witness :
  shuffle (fun i => (i + 5)%nat) [up Spades RA] = [up Spades RA].
Proof.
  destruct (shuffle_permutes (fun i => (i + 5)%nat) [up Spades RA]) as (_ & _ & H).
  apply H. simpl. lia.
Defined.

(** ** Valid sequences *)

Lemma valid_from_suffix (cards : list Card) (i j : Z) :
  i ≤ j → valid_from cards i → valid_from cards j.
Proof.
  intros Hij [Hup Hadj]. split.
  - intros k a Hk. apply Hup. lia.
  - intros k a b Hk. apply Hadj. lia.
Qed.

Lemma valid_from_short (cards : list Card) (i : Z) :
  0 ≤ i → valid_from cards i → len cards - i ≤ 13.
Proof.
  intros Hi Hvalid.
  destruct (decide (i < len cards)) as [Hlt|]; [|lia].
  destruct (at_in_range cards i) as (top & _ & Htop); [lia|].
  destruct (at_in_range cards (len cards - 1)) as (bot & _ & Hbot); [lia|].
  replace i with (Z.of_nat (Z.to_nat i)) in Hvalid by lia.
  destruct (valid_from_chain cards (Z.to_nat i) top Hvalid Htop
              (Z.to_nat (len cards - 1) - Z.to_nat i)%nat bot) as (_ & _ & Hr).
  { rewrite <- Hbot. f_equal. lia. }
  pose proof (getRankValue_pos (rank bot)).
  assert (getRankValue (rank top) ≤ 13) by (destruct (rank top); simpl; lia).
  lia.
Qed.

(** X3. A valid sequence stays valid from any later start index, and it
    never has more than 13 cards: if [isValidSequence] answers [true] at a
    start index that is not negative, it answers [true] at every larger
    one, and at most 13 cards lie from the start index to the end of the
    column. *)
Theorem isValidSequence_tails (cards : list Card) (i j : Z) :
  0 ≤ i ≤ j → isValidSequence cards i = Ok true →
  isValidSequence cards j = Ok true ∧ len cards - i ≤ 13.
Proof.
  intros [Hi Hij] Hseq.
  destruct (isValidSequence_spec cards i Hi) as (b & Hb & Hiff).
  rewrite Hseq in Hb. injection Hb as <-.
  assert (valid_from cards i) as Hvalid by by apply Hiff.
  split; [|by apply valid_from_short].
  destruct (isValidSequence_spec cards j) as (b' & -> & Hiff'); [lia|].
  f_equal. apply Hiff'. by apply (valid_from_suffix cards i).
Qed.

Lemma isValidSequence_tails_witness :
  isValidSequence (down Hearts R3 :: full_run Spades) 5 = Ok true ∧
  len (down Hearts R3 :: full_run Spades) - 1 ≤ 13.
Proof.
  apply (isValidSequence_tails (down Hearts R3 :: full_run Spades) 1 5).
  - lia.
  - reflexivity.
Defined.

(** X4. For a start index that is not negative, [getMovableSequenceStart]
    gives the answer of [canMoveCards] for a move onto an empty column.
    For a negative start index it raises, where [canMoveCards] answers
    [false]: it reads [column[fromIndex].faceUp] after a check of the upper
    bound only. *)
Theorem getMovableSequenceStart_spec (column : list Card) (fromIndex : Z) :
  (0 ≤ fromIndex →
   getMovableSequenceStart column fromIndex =
     canMoveCards (Some column) fromIndex (Some [])) ∧
  (fromIndex < 0 →
   getMovableSequenceStart column fromIndex = TypeError ∧
   canMoveCards (Some column) fromIndex (Some []) = Ok false).
Proof.
  unfold getMovableSequenceStart, canMoveCards. split.
  - intros Hi. rewrite (decide_False (P := fromIndex < 0)) by lia. simpl.
    case_decide as Hlen; [done|].
    destruct (at_in_range column fromIndex) as (a & Ha & _); [lia|].
    rewrite Ha. simpl.
    destruct (isValidSequence_spec column fromIndex Hi) as (v & -> & Hv). simpl.
    destruct (faceUp a) eqn:Hup; simpl; [by destruct v|].
    destruct v; [|done]. destruct Hv as [Hv _].
    destruct (Hv eq_refl) as [Hface _].
    rewrite (Hface fromIndex a) in Hup; [done | lia | done].
  - intros Hneg. split.
    + rewrite (decide_False (P := len column ≤ fromIndex)) by (unfold len; lia).
      unfold at_. by rewrite decide_False by lia.
    + by rewrite (decide_True (P := fromIndex < 0)).
Qed.

Lemma getMovableSequenceStart_spec_witness :
  getMovableSequenceStart (down Hearts R3 :: full_run Spades) 1 = Ok true ∧
  getMovableSequenceStart (down Hearts R3 :: full_run Spades) (-1) = TypeError.
Proof.
  destruct (getMovableSequenceStart_spec (down Hearts R3 :: full_run Spades) 1)
    as [H _].
  destruct (getMovableSequenceStart_spec (down Hearts R3 :: full_run Spades) (-1))
    as [_ H'].
  split.
  - rewrite H by lia. reflexivity.
  - apply H'. lia.
Defined.

(** ** What [removeCompleteRuns] and [moveCards] leave alone *)


Lemma short_no_run (col : list Card) : (length col < 13)%nat → no_run col.
Proof. intros Hlen p Hp. apply run_at_length in Hp. lia. Qed.





Lemma moveCards_cases (state state' : GameState) (src i tgt : Z) :
  moveCards state src i tgt = Ok state' →
  ((src = tgt ∨
    canMoveCards (at_ (columns state) src) i (at_ (columns state) tgt) = Ok false) ∧
   state' = state) ∨
  (∃ srcCol tgtCol,
     src ≠ tgt ∧
     at_ (columns state) src = Some srcCol ∧ at_ (columns state) tgt = Some tgtCol ∧
     canMoveCards (Some srcCol) i (Some tgtCol) = Ok true ∧
     removeCompleteRuns (after_move state src i tgt srcCol tgtCol) = Ok state').
Proof.
  intros Hmove.
  destruct (decide (src = tgt)) as [Heq|Hne].
  { left. unfold moveCards in Hmove. rewrite decide_True in Hmove by done.
    injection Hmove as <-. split; [by left | done]. }
  destruct (canMoveCards (at_ (columns state) src) i (at_ (columns state) tgt))
    as [[|]|] eqn:Hcan.
  2,3: unfold moveCards in Hmove; rewrite decide_False, Hcan in Hmove by done.
  2: left; injection Hmove as <-; split; [by right | done].
  2: done.
  right.
  destruct (canMoveCards_true_defined _ _ _ Hcan) as (srcCol & tgtCol & Hsrc & Htgt).
  rewrite Hsrc, Htgt in Hcan.
  rewrite (moveCards_accepted state src i tgt srcCol tgtCol) in Hmove by done.
  by exists srcCol, tgtCol.
Qed.



(** ** The score *)

Lemma dealFromStock_cases (state state' : GameState) :
  dealFromStock state = Ok (Some state') →
  ∃ rest pile, stock state = rest ++ [pile] ∧ [] ∉ columns state.
Proof.
  intros Hdeal.
  destruct (snoc_cases (stock state)) as [Hs | (rest & pile & Hs)].
  { unfold dealFromStock in Hdeal. rewrite Hs in Hdeal. done. }
  destruct (decide ([] ∈ columns state)) as [Hin|Hfull].
  { unfold dealFromStock in Hdeal. apply has_empty_column in Hin.
    rewrite Hin in Hdeal. by case_decide. }
  by exists rest, pile.
Qed.

Lemma score_law_ok (state : GameState) :
  reachable state →
  score state + moves state + len (stock state) - 100 * completedRuns state = 505 ∧
  len (stock state) ≤ 5 ∧ 5 - len (stock state) ≤ moves state.
Proof.
  induction 1 as [rnd d state Hnew | state src i tgt state' Hreach IH Hmove
                 | state state' Hreach IH Hdeal].
  - set (allCards := shuffle rnd (pack_of d)).
    assert (length allCards = 104%nat) as Hlen
      by (unfold allCards; by rewrite shuffle_length, pack_of_length).
    rewrite createGame_phases, (lay_out_spec _ _ Hlen) in Hnew.
    injection Hnew as <-. unfold len. simpl. lia.
  - destruct (moveCards_cases _ _ _ _ _ Hmove)
      as [[_ ->] | (srcCol & tgtCol & _ & _ & _ & _ & Hrun)]; [done|].
    rewrite removeCompleteRuns_spec in Hrun. injection Hrun as <-. simpl. lia.
  - destruct (dealFromStock_cases _ _ Hdeal) as (rest & pile & Hs & Hfull).
    destruct (reachable_ok _ Hreach) as (Hcols & Hpiles & _).
    rewrite Hs in Hpiles. apply Forall_app in Hpiles as [_ Hpile].
    rewrite Forall_singleton in Hpile.
    rewrite (dealFromStock_dealt state rest pile), removeCompleteRuns_spec in Hdeal
      by (done || lia).
    simpl in Hdeal. injection Hdeal as <-. simpl.
    rewrite Hs, len_snoc in IH. lia.
Qed.

(** X7. In every reachable state the score can be read off the counters:
    with [5 - stock.length] deals made so far, the score is 500, minus one
    for every move that was not a deal, plus 100 for every completed run.
    The stock never holds more than its five piles, and the move counter
    counts at least the deals. *)
Theorem score_law (state : GameState) :
  reachable state →
  let deals := 5 - len (stock state) in
  score state = 500 - (moves state - deals) + 100 * completedRuns state ∧
  0 ≤ deals ≤ 5 ∧ deals ≤ moves state.
Proof.
  intros Hreach deals. unfold deals.
  destruct (score_law_ok state Hreach) as (Hlaw & Hstock & Hmoves).
  unfold len in *. lia.
Qed.

Lemma score_law_witness :
  ∃ state state', createGame (fun i => (i + 1)%nat) D4 = Some state ∧
    dealFromStock state = Ok (Some state') ∧
    score state' = 500 - (moves state' - (5 - len (stock state')))
                   + 100 * completedRuns state'.
Proof.
  destruct (createGame (fun i => (i + 1)%nat) D4) as [state|] eqn:Hnew.
  - destruct (dealFromStock state) as [[state'|]|] eqn:Hdeal.
    + exists state, state'. split_and!; [done | done |].
      apply (score_law state').
      eapply reach_deal; [|exact Hdeal]. by eapply reach_new.
    + vm_compute in Hnew. injection Hnew as <-. vm_compute in Hdeal.
      discriminate Hdeal.
    + vm_compute in Hnew. injection Hnew as <-. vm_compute in Hdeal.
      discriminate Hdeal.
  - vm_compute in Hnew. discriminate Hnew.
Defined.

(** ** [dealFromStock] on any stock *)

Lemma deal_onto_columns_any (cols : list (list Card)) (dealPile : list Card) :
  imap (fun idx col =>
          if decide (Z.of_nat idx < len dealPile) then
            from_option (fun card => col ++ [with_faceUp card true]) col
                        (dealPile !! idx)
          else col) cols =
  imap (deal_onto dealPile) cols.
Proof.
  apply imap_ext. intros idx col _. unfold deal_onto.
  destruct (dealPile !! idx) as [card|] eqn:Hcard; simpl; [|by case_decide].
  apply lookup_lt_Some in Hcard. rewrite decide_True; [done | unfold len; lia].
Qed.


Lemma dealFromStock_some (state : GameState) :
  stock state ≠ [] → [] ∉ columns state →
  ∃ rest pile, stock state = rest ++ [pile] ∧
    dealFromStock state =
      (newState ← removeCompleteRuns
         {| columns := imap (deal_onto pile) (columns state); stock := rest;
            completedRuns := completedRuns state; score := score state;
            moves := moves state + 1; difficulty := difficulty state |};
       Ok (Some newState)).
Proof.
  intros Hne Hfull.
  destruct (snoc_cases (stock state)) as [|(rest & pile & Hs)]; [done|].
  exists rest, pile. split; [done|]. unfold dealFromStock. rewrite Hs.
  rewrite decide_False by (rewrite len_snoc; unfold len; lia).
  destruct (existsb _ (columns state)) eqn:Hex.
  { by apply has_empty_column in Hex. }
  rewrite last_snoc, defined_Some, bind_Ok, deal_onto_columns_any.
  rewrite length_app. simpl.
  replace (length rest + 1 - 1)%nat with (length rest) by lia.
  by rewrite take_app_length.
Qed.

Lemma dealFromStock_null_iff (state : GameState) :
  dealFromStock state = Ok None ↔ stock state = [] ∨ [] ∈ columns state.
Proof.
  split.
  - intros Hnull.
    destruct (decide (stock state = [])) as [|Hne]; [by left|]. right.
    destruct (decide ([] ∈ columns state)) as [|Hfull]; [done|]. exfalso.
    destruct (dealFromStock_some state Hne Hfull) as (rest & pile & _ & Hd).
    rewrite Hd, removeCompleteRuns_spec in Hnull. done.
  - unfold dealFromStock. intros [Hs | Hin].
    + rewrite Hs. by rewrite decide_True.
    + case_decide; [done|]. apply has_empty_column in Hin. by rewrite Hin.
Qed.



(** ** What the hint search promises *)

Lemma findHint_outcome (state : GameState) :
  (∃ src i tgt, findHint state = Ok (HintSameSuit src i tgt) ∧
     first_move (same_suit_move (columns state)) src i tgt) ∨
  ((∀ src i tgt, ¬ same_suit_move (columns state) src i tgt) ∧
   ((∃ src i tgt, findHint state = Ok (HintAnyMove src i tgt) ∧
       first_move (any_move (columns state)) src i tgt) ∨
    ((∀ src i tgt, ¬ any_move (columns state) src i tgt) ∧
     ((stock state ≠ [] ∧ findHint state = Ok HintDeal) ∨
      (stock state = [] ∧ findHint state = Ok HintNoMoves))))).
Proof.
  assert (∀ cand : Z → Z → Z → Prop,
            (∀ src i tgt, cand src i tgt → legal_move (columns state) src i tgt) →
            ∀ src i tgt, cand src i tgt →
              ∃ col, at_ (columns state) src = Some col ∧ 0 ≤ i < len col ∧
                     valid_from col i ∧ 0 ≤ tgt < len (columns state)) as Hrange.
  { intros cand Hlegal src i tgt Hc.
    destruct (legal_move_range _ _ _ _ (Hlegal _ _ _ Hc))
      as (col & _ & ? & _ & ? & ? & ?).
    by exists col. }
  unfold findHint.
  destruct (searchMoves_spec (columns state) (sameSuitTarget (columns state))
              (same_suit_move (columns state)) HintSameSuit)
    as [[-> Hno1] | (src & i & tgt & -> & Hfirst)];
    [apply Hrange; by intros ? ? ? [? _] | apply sameSuitTarget_spec | |].
  2:{ left. by exists src, i, tgt. }
  right. split; [done|]. simpl.
  destruct (searchMoves_spec (columns state) (anyTarget (columns state))
              (any_move (columns state)) HintAnyMove)
    as [[-> Hno2] | (src & i & tgt & -> & Hfirst)];
    [apply Hrange; by intros ? ? ? [? _] | apply anyTarget_spec | |].
  2:{ left. by exists src, i, tgt. }
  right. split; [done|]. simpl. case_decide as Hstock.
  - left. split; [|done]. intros Hs. rewrite Hs in Hstock. by unfold len in Hstock.
  - right. split; [|done].
    destruct (stock state); [done | unfold len in Hstock; simpl in Hstock; lia].
Qed.



(** X10. When [findHint] reports no move, the only legal moves left are
    those onto an empty column, which the search leaves out. It then
    advises a deal exactly when the stock is not empty, whether or not a
    deal is possible: [dealFromStock] still returns [null] if a column is
    empty. *)
Theorem hint_without_move (state : GameState) :
  findHint state = Ok HintDeal ∨ findHint state = Ok HintNoMoves →
  (∀ src i tgt, legal_move (columns state) src i tgt →
     at_ (columns state) tgt = Some []) ∧
  (findHint state = Ok HintDeal ↔ stock state ≠ []) ∧
  (dealFromStock state = Ok None ↔ stock state = [] ∨ [] ∈ columns state).
Proof.
  intros Hhint.
  assert ((∀ src i tgt, ¬ any_move (columns state) src i tgt) ∧
          (findHint state = Ok HintDeal ↔ stock state ≠ [])) as [Hno Hdeal].
  { destruct (findHint_outcome state)
      as [(s' & i' & t' & Hf & _)
         | [_ [(s' & i' & t' & Hf & _) | [Hno [[Hs Hf] | [Hs Hf]]]]]];
      rewrite Hf in Hhint |- *; [by destruct Hhint | by destruct Hhint | |].
    - split; [done|]. by split.
    - split; [done|]. split; [done | by intros []]. }
  split_and!; [| done | apply dealFromStock_null_iff].
  intros src i tgt Hlegal.
  destruct (legal_move_range _ _ _ _ Hlegal) as (col & tcol & _ & Htcol & _).
  rewrite Htcol. f_equal. destruct (decide (tcol = [])) as [|Hne]; [done|].
  exfalso. apply (Hno src i tgt). split; [done|]. by exists tcol.
Qed.

Lemma hint_without_move_witness :
  findHint full_table = Ok HintDeal ∧ stock full_table ≠ [].
Proof.
  split; [reflexivity|].
  destruct (hint_without_move full_table) as (_ & Hdeal & _).
  - left. reflexivity.
  - apply Hdeal. reflexivity.
Defined.

(** ** A won game *)

Lemma won_table_empty (state : GameState) :
  table_ok state → isGameWon state = true →
  Forall (fun col => col = []) (columns state) ∧ stock state = [].
Proof.
  intros (_ & Hpiles & Hcount & _ & _) Hwon.
  unfold isGameWon in Hwon. apply bool_decide_eq_true in Hwon.
  assert (0 ≤ card_count (columns state)) by (unfold card_count; lia).
  assert (0 ≤ card_count (stock state)) by (unfold card_count; lia).
  assert (card_count (columns state) = 0) as Hc by lia.
  assert (card_count (stock state) = 0) as Hs by lia.
  apply card_count_zero in Hc, Hs. split; [done|].
  destruct (stock state) as [|pile piles]; [done|].
  apply Forall_cons in Hpiles as [Hlen _]. apply Forall_cons in Hs as [-> _]. done.
Qed.

(** X11. A won game is over. In a state that satisfies the invariant of
    the game (as every reachable state does) and in which [isGameWon]
    holds, all columns and the stock are empty, so [moveCards] returns the
    state unchanged for any two columns and any start index,
    [dealFromStock] returns [null], and [findHint] reports that no move is
    available. *)
Theorem won_game_is_over (state : GameState) :
  table_ok state → isGameWon state = true →
  (∀ src i tgt, 0 ≤ src < 10 → 0 ≤ tgt < 10 →
     moveCards state src i tgt = Ok state) ∧
  dealFromStock state = Ok None ∧
  findHint state = Ok HintNoMoves.
Proof.
  intros Hok Hwon. destruct (won_table_empty state Hok Hwon) as [Hempty Hstock].
  destruct Hok as (Hlen & _).
  assert (∀ k col, at_ (columns state) k = Some col → col = []) as Hcol.
  { intros k col [_ Hk]%at_Some. by apply (Forall_lookup_1 _ _ _ _ Hempty Hk). }
  split_and!.
  - intros src i tgt Hsrc Htgt.
    destruct (at_in_range (columns state) src) as (srcCol & Hs & _);
      [unfold len; lia|].
    destruct (at_in_range (columns state) tgt) as (tgtCol & Ht & _);
      [unfold len; lia|].
    destruct (moveCards_total state src i tgt srcCol tgtCol Hs Ht)
      as (state' & -> & Hout).
    f_equal. apply Hout. rewrite (Hcol _ _ Hs). unfold len. simpl. lia.
  - apply dealFromStock_null_iff. by left.
  - assert (∀ src i tgt, ¬ legal_move (columns state) src i tgt) as Hno.
    { intros src i tgt Hlegal.
      destruct (legal_move_range _ _ _ _ Hlegal) as (col & _ & Hs & _ & Hi & _).
      rewrite (Hcol _ _ Hs) in Hi. unfold len in Hi. simpl in Hi. lia. }
    destruct (findHint_outcome state)
      as [(s' & i' & t' & _ & [[Hl _] _])
         | [_ [(s' & i' & t' & _ & [[Hl _] _]) | [_ [[Hs _] | [_ Hf]]]]]];
      [by apply Hno in Hl | by apply Hno in Hl | done | done].
Qed.

Lemma won_game_is_over_witness :
  moveCards won_table 3 0 7 = Ok won_table ∧
  findHint won_table = Ok HintNoMoves.
Proof.
  destruct (won_game_is_over won_table) as (Hmove & _ & Hhint).
  - unfold table_ok. split_and!; [done | constructor | done | done |].
    apply Forall_forall. intros col Hin.
    assert (col = []) as ->.
    { simpl in Hin. repeat (apply elem_of_cons in Hin as [Hin|Hin]; [done|]).
      by apply elem_of_nil in Hin. }
    split; [intros i j a b Ha; done | apply short_no_run; simpl; lia].
  - reflexivity.
  - split; [apply Hmove; lia | exact Hhint].
Defined.

(** ** Card ids *)

Lemma id_count_nil (x : string) : id_count x [] = 0.
Proof. done. Qed.

Lemma id_count_cons (x : string) (a : Card) (l : list Card) :
  id_count x (a :: l) = (if decide (id a = x) then 1 else 0) + id_count x l.
Proof.
  unfold id_count. rewrite filter_cons. case_decide; [|lia].
  cbn [length]. lia.
Qed.

Lemma id_count_app (x : string) (l k : list Card) :
  id_count x (l ++ k) = id_count x l + id_count x k.
Proof. unfold id_count. rewrite filter_app, length_app. lia. Qed.

Lemma id_count_nonneg (x : string) (l : list Card) : 0 ≤ id_count x l.
Proof. unfold id_count. lia. Qed.

Lemma id_count_take_drop (x : string) (n : nat) (l : list Card) :
  id_count x (take n l) + id_count x (drop n l) = id_count x l.
Proof. by rewrite <- id_count_app, take_drop. Qed.

Lemma id_count_reveal (x : string) (col : list Card) :
  id_count x (reveal col) = id_count x col.
Proof.
  destruct (snoc_cases col) as [-> | (l & top & ->)]; [done|].
  by rewrite reveal_snoc, !id_count_app, !id_count_cons.
Qed.

Lemma id_count_concat_cons (x : string) (col : list Card) (cols : list (list Card)) :
  id_count x (concat (col :: cols)) = id_count x col + id_count x (concat cols).
Proof. simpl. apply id_count_app. Qed.

Lemma id_count_insert (x : string) (cols : list (list Card)) (k : nat)
    (old new : list Card) :
  cols !! k = Some old →
  id_count x (concat (<[k := new]> cols)) =
    id_count x (concat cols) - id_count x old + id_count x new.
Proof.
  intros Hk. rewrite insert_take_drop by by eapply lookup_lt_Some.
  rewrite <- (take_drop_middle cols k old Hk) at 3.
  rewrite !concat_app, !id_count_app, !id_count_concat_cons. lia.
Qed.

Lemma id_count_settle (x : string) (cols : list (list Card)) :
  id_count x (concat (map settle cols)) ≤ id_count x (concat cols).
Proof.
  induction cols as [|col cols IH]; [done|].
  change (map settle (col :: cols)) with (settle col :: map settle cols).
  rewrite !id_count_concat_cons. unfold settle at 1.
  destruct (has_run col); [|lia].
  rewrite id_count_reveal.
  pose proof (id_count_take_drop x (length col - 13) col).
  pose proof (id_count_nonneg x (drop (length col - 13) col)). lia.
Qed.

Lemma id_count_deal (x : string) (cols : list (list Card)) (pile : list Card) :
  (length cols ≤ length pile)%nat →
  id_count x (concat (zip_with (fun col card => col ++ [with_faceUp card true])
                               cols pile)) =
    id_count x (concat cols) + id_count x (take (length cols) pile).
Proof.
  revert pile. induction cols as [|col cols IH]; intros pile Hlen; [done|].
  destruct pile as [|card pile]; [simpl in Hlen; lia|].
  simpl in Hlen. cbn [zip_with length take].
  rewrite !id_count_concat_cons, IH by lia.
  rewrite id_count_app, !id_count_cons, id_count_nil. simpl. lia.
Qed.

Lemma id_count_elem (x : string) (l : list Card) :
  x ∈ id <$> l ↔ 1 ≤ id_count x l.
Proof.
  induction l as [|a l IH].
  - rewrite id_count_nil. split; [by intros ?%elem_of_nil | lia].
  - rewrite fmap_cons, elem_of_cons, id_count_cons, IH.
    pose proof (id_count_nonneg x l). case_decide as Hx.
    + split; [lia | by left].
    + split; [intros [Heq | Hge]; [by symmetry in Heq | lia] | right; lia].
Qed.

Lemma id_count_NoDup (l : list Card) :
  NoDup (id <$> l) ↔ ∀ x, id_count x l ≤ 1.
Proof.
  induction l as [|a l IH].
  - split; [intros _ x; by rewrite id_count_nil | constructor].
  - rewrite fmap_cons, NoDup_cons, IH, id_count_elem. split.
    + intros [Hnot Hall] x. rewrite id_count_cons.
      pose proof (id_count_nonneg (id a) l). specialize (Hall x).
      case_decide; [subst x|]; lia.
    + intros Hall. split.
      * specialize (Hall (id a)). rewrite id_count_cons, decide_True in Hall by done.
        lia.
      * intros x. specialize (Hall x). rewrite id_count_cons in Hall.
        case_decide; lia.
Qed.

Lemma pack_of_ids (difficulty : Difficulty) : NoDup (id <$> pack_of difficulty).
Proof.
  assert (bool_decide (NoDup (id <$> pack_of difficulty)) = true) as Hnodup
    by (destruct difficulty; vm_compute; reflexivity).
  by apply bool_decide_eq_true in Hnodup.
Qed.

Lemma lay_out_cards (allCards : list Card) (difficulty : Difficulty)
    (state : GameState) :
  length allCards = 104%nat →
  lay_out allCards difficulty = Some state →
  id <$> table_cards state = id <$> allCards.
Proof.
  intros Hlen. rewrite (lay_out_spec _ _ Hlen). intros [= <-].
  unfold table_cards. cbn [columns stock concat].
  assert (∀ l : list Card, id <$> l = id <$> ((fun a => with_faceUp a false) <$> l))
    as Hid.
  { intros l. rewrite <- list_fmap_compose. by apply list_fmap_ext. }
  rewrite (Hid (_ ++ _)).
  rewrite !app_nil_r, !fmap_app, !dealt_column_cards, <- !fmap_app.
  rewrite !app_assoc. repeat rewrite take_drop_join by reflexivity.
  rewrite (take_ge (drop 0 allCards)) by (rewrite length_drop; lia).
  by rewrite drop_0, <- Hid.
Qed.

Lemma unique_ids_ok (state : GameState) :
  reachable state → ∀ x, id_count x (table_cards state) ≤ 1.
Proof.
  induction 1 as [rnd d state Hnew | state src i tgt state' Hreach IH Hmove
                 | state state' Hreach IH Hdeal]; intros x.
  - revert x. apply id_count_NoDup.
    rewrite createGame_phases in Hnew.
    rewrite (lay_out_cards _ _ _ ltac:(by rewrite shuffle_length, pack_of_length) Hnew).
    rewrite shuffle_Permutation. apply pack_of_ids.
  - specialize (IH x).
    destruct (moveCards_cases _ _ _ _ _ Hmove)
      as [[_ ->] | (srcCol & tgtCol & Hne & Hsrc & Htgt & Hcan & Hrun)]; [done|].
    rewrite removeCompleteRuns_spec in Hrun. injection Hrun as <-.
    unfold table_cards in *. cbn [columns stock] in *.
    rewrite id_count_app in *.
    pose proof (id_count_settle x
      (set_at (set_at (columns state) src (reveal (take (Z.to_nat i) srcCol)))
              tgt (tgtCol ++ drop (Z.to_nat i) srcCol))) as Hsettle.
    apply at_Some in Hsrc as [Hs0 Hsrc]. apply at_Some in Htgt as [Ht0 Htgt].
    unfold set_at in Hsettle. rewrite !decide_True in Hsettle by done.
    rewrite (id_count_insert _ _ _ tgtCol) in Hsettle
      by (rewrite list_lookup_insert_ne by lia; done).
    rewrite (id_count_insert _ _ _ srcCol) in Hsettle by done.
    rewrite id_count_reveal, id_count_app in Hsettle.
    pose proof (id_count_take_drop x (Z.to_nat i) srcCol).
    unfold set_at. rewrite !decide_True by done. lia.
  - specialize (IH x).
    destruct (dealFromStock_cases _ _ Hdeal) as (rest & pile & Hs & Hfull).
    destruct (reachable_ok _ Hreach) as (Hcols & Hpiles & _).
    rewrite Hs in Hpiles. apply Forall_app in Hpiles as [_ Hpile].
    rewrite Forall_singleton in Hpile.
    rewrite (dealFromStock_dealt state rest pile), removeCompleteRuns_spec in Hdeal
      by (done || lia).
    simpl in Hdeal. injection Hdeal as <-.
    unfold table_cards in *. cbn [columns stock] in *.
    rewrite Hs, concat_app, !id_count_app in IH. simpl in IH.
    rewrite app_nil_r in IH. rewrite id_count_app.
    pose proof (id_count_settle x
      (zip_with (fun col card => col ++ [with_faceUp card true])
                (columns state) pile)) as Hsettle.
    rewrite id_count_deal in Hsettle by lia.
    rewrite take_ge in Hsettle by lia. lia.
Qed.

(** X12. No card is ever duplicated: in every reachable state the ids of
    the cards of the columns and of the stock are pairwise different. The
    ids [createGame] gives are all different, a move or a deal only moves
    cards, and [removeCompleteRuns] only takes cards away. *)
Theorem card_ids_unique (state : GameState) :
  reachable state → NoDup (id <$> table_cards state).
Proof. intros Hreach. apply id_count_NoDup. by apply unique_ids_ok. Qed.

Lemma card_ids_unique_witness :
  ∃ state state', createGame (fun i => (i * i)%nat) D2 = Some state ∧
    dealFromStock state = Ok (Some state') ∧ NoDup (id <$> table_cards state').
Proof.
  destruct (createGame (fun i => (i * i)%nat) D2) as [state|] eqn:Hnew.
  - destruct (dealFromStock state) as [[state'|]|] eqn:Hdeal.
    + exists state, state'. split_and!; [done | done |].
      apply (card_ids_unique state').
      eapply reach_deal; [|exact Hdeal]. by eapply reach_new.
    + vm_compute in Hnew. injection Hnew as <-. vm_compute in Hdeal.
      discriminate Hdeal.
    + vm_compute in Hnew. injection Hnew as <-. vm_compute in Hdeal.
      discriminate Hdeal.
  - vm_compute in Hnew. discriminate Hnew.
Defined.

(** ** The height of a column *)

Lemma stack_offset_app (l k : list Card) :
  stack_offset (l ++ k) = stack_offset l + stack_offset k.
Proof.
  induction l as [|a l IH]; [done|]. simpl. unfold stack_offset in *. simpl.
  rewrite IH. lia.
Qed.

Lemma stack_offset_bounds (l : list Card) :
  10 * len l ≤ stack_offset l ≤ 28 * len l.
Proof.
  induction l as [|a l IH]; [done|].
  unfold stack_offset, len in *. simpl.
  unfold FACE_UP_OFFSET, FACE_DOWN_OFFSET in *. destruct (faceUp a); lia.
Qed.

Lemma add_offsets_spec (column : list Card) (n : nat) (i : nat) (h : Z) :
  (i + n ≤ length column)%nat →
  add_offsets column n (Z.of_nat i) h =
    Ok (h + stack_offset (take n (drop i column))).
Proof.
  revert i h. induction n as [|n IH]; intros i h Hlen.
  - simpl. f_equal. unfold stack_offset. simpl. lia.
  - destruct (lookup_lt_is_Some_2 column i) as [a Ha]; [lia|].
    cbn [add_offsets]. rewrite at_nat, Ha. simpl.
    replace (Z.of_nat i + 1) with (Z.of_nat (S i)) by lia.
    rewrite IH by lia. rewrite (drop_S _ _ _ Ha). simpl.
    f_equal. unfold stack_offset. simpl. lia.
Qed.

Lemma add_offsets_from_zero (column : list Card) (n : nat) (h : Z) :
  (n ≤ length column)%nat →
  add_offsets column n 0 h = Ok (h + stack_offset (take n column)).
Proof.
  intros Hn. change 0 with (Z.of_nat 0) at 1.
  rewrite add_offsets_spec by lia. by rewrite drop_0.
Qed.

Lemma yOffset_spec (column : list Card) (k : nat) :
  (k ≤ length column)%nat →
  yOffset column (Z.of_nat k) = Ok (stack_offset (take k column)).
Proof.
  intros Hk. unfold yOffset.
  replace (Z.to_nat (Z.of_nat k - 0)) with k by lia.
  by rewrite add_offsets_from_zero by lia.
Qed.

Lemma getColumnHeight_offset (column : list Card) :
  getColumnHeight column =
    Ok (CARD_HEIGHT + stack_offset (take (length column - 1) column)).
Proof.
  unfold getColumnHeight. case_decide as Hempty.
  - destruct column; [done | unfold len in Hempty; simpl in Hempty; lia].
  - replace (Z.to_nat (len column - 1 - 0)) with (length column - 1)%nat
      by (unfold len; lia).
    by rewrite add_offsets_from_zero by lia.
Qed.

(** X13. [getColumnHeight] never raises. The height it returns is that of
    one card (112) plus the offset at which the top card of the column is
    drawn; it grows by at least 10 and at most 28 for every card but the
    top one; and every card of the column fits in it: the offset at which a
    card is drawn plus the height of a card never exceeds the height of the
    column. *)
Theorem getColumnHeight_covers (column : list Card) :
  ∃ h, getColumnHeight column = Ok h ∧
    (column = [] → h = CARD_HEIGHT) ∧
    (column ≠ [] →
       yOffset column (len column - 1) = Ok (h - CARD_HEIGHT) ∧
       CARD_HEIGHT + 10 * (len column - 1) ≤ h ≤ CARD_HEIGHT + 28 * (len column - 1)) ∧
    (∀ k, 0 ≤ k < len column →
       ∃ y, yOffset column k = Ok y ∧ 0 ≤ y ∧ y + CARD_HEIGHT ≤ h).
Proof.
  rewrite getColumnHeight_offset. eexists. split; [done|].
  set (top := (length column - 1)%nat).
  split_and!.
  - by intros ->.
  - intros Hne.
    assert (0 < length column)%nat by (destruct column; [done | simpl; lia]).
    replace (len column - 1) with (Z.of_nat top) by (unfold len, top; lia).
    rewrite yOffset_spec by (unfold top; lia). split; [f_equal; lia|].
    pose proof (stack_offset_bounds (take top column)) as Hb.
    unfold len in Hb. rewrite length_take in Hb.
    replace (top `min` length column)%nat with top in Hb by (unfold top; lia).
    lia.
  - intros k Hk. unfold len in Hk.
    replace k with (Z.of_nat (Z.to_nat k)) by lia.
    rewrite yOffset_spec by lia. eexists. split; [done|].
    pose proof (stack_offset_bounds (take (Z.to_nat k) column)) as Hb.
    assert (take top column =
            take (Z.to_nat k) column ++ take (top - Z.to_nat k) (drop (Z.to_nat k) column))
      as ->.
    { rewrite take_take_drop. f_equal. unfold top. lia. }
    rewrite stack_offset_app.
    pose proof (stack_offset_bounds
                  (take (top - Z.to_nat k) (drop (Z.to_nat k) column))) as Hb'.
    unfold len in *. lia.
Qed.

Lemma getColumnHeight_covers_witness :
  getColumnHeight (columns small_table !!! 0%nat) = Ok 150 ∧
  yOffset (columns small_table !!! 0%nat) 2 = Ok 38.
Proof.
  destruct (getColumnHeight_covers (columns small_table !!! 0%nat))
    as (h & Hh & _ & Htop & _).
  assert (h = 150) as -> by (vm_compute in Hh; by injection Hh as <-).
  split; [done|]. destruct Htop as [Hy _]; [done|]. exact Hy.
Defined.

(** ** The click handlers *)


Lemma handleCardClick_game (c k : Z) (app app' : AppState) :
  handleCardClick c k app = Ok app' →
  gameState app' = gameState app ∨
  ∃ gs sc sk gs',
    gameState app = Some gs ∧ selectedCard app = Some (mkSelected sc sk) ∧
    moveCards gs sc sk c = Ok gs' ∧ gs' ≠ gs ∧
    gameState app' = Some gs' ∧ selectedCard app' = None.
Proof.
  unfold handleCardClick. destruct (wasDrag app); [intros [= <-]; by left|].
  destruct (gameState app) as [gs|] eqn:Hgs; [|intros [= <-]; by left].
  destruct (at_ (columns gs) c) as [col|]; [|done]. simpl.
  destruct (at_ col k) as [a|]; [|done]. simpl.
  destruct (faceUp a); simpl; [|intros [= <-]; by left].
  destruct (isValidSequence col k) as [[|]|]; simpl; [|intros [= <-]; by left|done].
  destruct (selectedCard app) as [[sc sk]|] eqn:Hsel;
    [|intros [= <-]; left; exact Hgs].
  case_decide as Hcol.
  - destruct (moveCards gs sc sk c) as [gs'|] eqn:Hmove; [|done]. simpl.
    case_decide as Hnew.
    + intros [= <-]. right. by exists gs, sc, sk, gs'.
    + case_decide; intros [= <-]; left; exact Hgs.
  - case_decide; intros [= <-]; left; exact Hgs.
Qed.

(** X14. A first click on a face-up card that begins a valid sequence,
    with nothing selected, selects that card and clears the hint; a second
    click on the same card takes the selection back. Neither click touches
    the game state. *)
Theorem click_selects_then_deselects (c k : Z) (app : AppState)
    (gs : GameState) (col : list Card) (a : Card) :
  wasDrag app = false → gameState app = Some gs → selectedCard app = None →
  at_ (columns gs) c = Some col → at_ col k = Some a → faceUp a = true →
  isValidSequence col k = Ok true →
  ∃ app1,
    handleCardClick c k app = Ok app1 ∧
    selectedCard app1 = Some {| colIdx := c; cardIdx := k |} ∧
    hint app1 = None ∧ gameState app1 = Some gs ∧
    handleCardClick c k app1 = Ok (setHint app None).
Proof.
  intros Hdrag Hgs Hsel Hcol Ha Hup Hvalid.
  assert (∀ app0, wasDrag app0 = false → gameState app0 = Some gs →
            handleCardClick c k app0 =
              match selectedCard app0 with
              | Some (mkSelected sc sk) =>
                  if decide (sc ≠ c) then
                    newState ← moveCards gs sc sk c;
                    if decide (newState ≠ gs) then
                      Ok (setSelectedCard (setGameState app0 (Some newState)) None)
                    else
                      Ok (setHint
                            (if decide (sc = c ∧ sk = k) then setSelectedCard app0 None
                             else setSelectedCard app0 (Some (mkSelected c k))) None)
                  else
                    Ok (setHint
                          (if decide (sc = c ∧ sk = k) then setSelectedCard app0 None
                           else setSelectedCard app0 (Some (mkSelected c k))) None)
              | None => Ok (setHint (setSelectedCard app0 (Some (mkSelected c k))) None)
              end) as Hclick.
  { intros app0 Hd Hg. unfold handleCardClick.
    rewrite Hd, Hg, Hcol. simpl. rewrite Ha. simpl. rewrite Hup. simpl.
    rewrite Hvalid. simpl. by destruct (selectedCard app0) as [[sc sk]|]. }
  eexists. rewrite (Hclick app Hdrag Hgs), Hsel.
  split_and!; [done | done | done | done |].
  rewrite Hclick by done. simpl.
  rewrite decide_False by (intros Hne; by apply Hne).
  rewrite decide_True by done.
  destruct app. simpl in *. by subst.
Qed.

Lemma click_selects_then_deselects_witness :
  ∃ app1, handleCardClick 0 1 small_app = Ok app1 ∧
    selectedCard app1 = Some {| colIdx := 0; cardIdx := 1 |} ∧
    handleCardClick 0 1 app1 = Ok (setHint small_app None).
Proof.
  destruct (click_selects_then_deselects 0 1 small_app small_table
              (columns small_table !!! 0%nat) (mkCard "b" Spades R7 true))
    as (app1 & Hfirst & Hsel & _ & _ & Hsecond).
  1-7: by vm_compute.
  by exists app1.
Defined.





Lemma handleEmptyColumnClick_game (c : Z) (app app' : AppState) :
  handleEmptyColumnClick c app = Ok app' →
  gameState app' = gameState app ∨
  ∃ gs sc sk gs', gameState app = Some gs ∧ moveCards gs sc sk c = Ok gs' ∧
    gameState app' = Some gs'.
Proof.
  unfold handleEmptyColumnClick.
  destruct (gameState app) as [gs|] eqn:Hgs; [|intros [= <-]; by left].
  destruct (selectedCard app) as [[sc sk]|]; [|intros [= <-]; by left].
  destruct (moveCards gs sc sk c) as [gs'|] eqn:Hmove; [|done]. simpl.
  case_decide; intros [= <-]; [right; by exists gs, sc, sk, gs' | by left].
Qed.

Lemma handleDeal_game (app app' : AppState) :
  handleDeal app = Ok app' →
  gameState app' = gameState app ∨
  ∃ gs gs', gameState app = Some gs ∧ dealFromStock gs = Ok (Some gs') ∧
    gameState app' = Some gs'.
Proof.
  unfold handleDeal.
  destruct (gameState app) as [gs|] eqn:Hgs; [|intros [= <-]; by left].
  case_decide; [intros [= <-]; by left|].
  destruct (existsb _ (columns gs)); [intros [= <-]; by left|].
  destruct (dealFromStock gs) as [[gs'|]|] eqn:Hdeal; simpl; [| |done].
  - intros [= <-]. right. by exists gs, gs'.
  - intros [= <-]. by left.
Qed.

(** X17. The click handlers never take the game out of the states of a
    game: if the game state on show is reachable (or there is none), then
    so is the game state that [handleCardClick], [handleEmptyColumnClick]
    or [handleDeal] leaves, because they change it through [moveCards] and
    [dealFromStock] only. *)
Theorem handlers_keep_game_reachable (c k : Z) (app app' : AppState) :
  (∀ gs, gameState app = Some gs → reachable gs) →
  handleCardClick c k app = Ok app' ∨
  handleEmptyColumnClick c app = Ok app' ∨
  handleDeal app = Ok app' →
  ∀ gs', gameState app' = Some gs' → reachable gs'.
Proof.
  intros Hreach Hstep gs' Hgs'.
  destruct Hstep as [Hclick | [Hempty | Hdeal]].
  - destruct (handleCardClick_game _ _ _ _ Hclick)
      as [Hsame | (gs & sc & sk & gs0 & Hgs & _ & Hmove & _ & Hnew & _)].
    + apply Hreach. by rewrite <- Hsame.
    + rewrite Hnew in Hgs'. injection Hgs' as <-.
      eapply reach_move; [by apply Hreach | exact Hmove].
  - destruct (handleEmptyColumnClick_game _ _ _ Hempty)
      as [Hsame | (gs & sc & sk & gs0 & Hgs & Hmove & Hnew)].
    + apply Hreach. by rewrite <- Hsame.
    + rewrite Hnew in Hgs'. injection Hgs' as <-.
      eapply reach_move; [by apply Hreach | exact Hmove].
  - destruct (handleDeal_game _ _ Hdeal) as [Hsame | (gs & gs0 & Hgs & Hd & Hnew)].
    + apply Hreach. by rewrite <- Hsame.
    + rewrite Hnew in Hgs'. injection Hgs' as <-.
      eapply reach_deal; [by apply Hreach | exact Hd].
Qed.

Lemma handlers_keep_game_reachable_witness :
  ∃ state app' gs',
    createGame (fun i => (5 * i)%nat) D1 = Some state ∧
    handleDeal {| gameState := Some state; selectedCard := None; hint := None;
                  wasDrag := false |} = Ok app' ∧
    gameState app' = Some gs' ∧ reachable gs'.
Proof.
  destruct (createGame (fun i => (5 * i)%nat) D1) as [state|] eqn:Hnew.
  2:{ vm_compute in Hnew. discriminate Hnew. }
  set (app := {| gameState := Some state; selectedCard := None; hint := None;
                 wasDrag := false |}).
  destruct (handleDeal app) as [app'|] eqn:Hdeal.
  2:{ vm_compute in Hnew. injection Hnew as <-. vm_compute in Hdeal.
      discriminate Hdeal. }
  destruct (gameState app') as [gs'|] eqn:Hgs.
  2:{ vm_compute in Hnew. injection Hnew as <-. vm_compute in Hdeal.
      injection Hdeal as <-. discriminate Hgs. }
  exists state, app', gs'. split_and!; [done | done | done |].
  apply (handlers_keep_game_reachable 0 0 app app').
  - intros gs [= <-]. by eapply reach_new.
  - right. right. exact Hdeal.
  - exact Hgs.
Defined.

(** ** Suits and difficulty *)

Lemma pack_of_suits (difficulty : Difficulty) :
  Forall (fun a => suit a ∈ suits_of difficulty) (pack_of difficulty).
Proof.
  assert (bool_decide
            (Forall (fun a => suit a ∈ suits_of difficulty) (pack_of difficulty))
          = true) as Hall
    by (destruct difficulty; vm_compute; reflexivity).
  by apply bool_decide_eq_true in Hall.
Qed.

Lemma reveal_Forall (P : Card → Prop) (col : list Card) :
  (∀ a b, P a → P (with_faceUp a b)) → Forall P col → Forall P (reveal col).
Proof.
  intros Hflip. destruct (snoc_cases col) as [-> | (l & top & ->)]; [done|].
  rewrite reveal_snoc, !Forall_app, !Forall_singleton. intros [? ?]. auto.
Qed.

Lemma settle_Forall (P : Card → Prop) (col : list Card) :
  (∀ a b, P a → P (with_faceUp a b)) → Forall P col → Forall P (settle col).
Proof.
  intros Hflip Hcol. unfold settle. destruct (has_run col); [|done].
  by apply reveal_Forall, Forall_take.
Qed.

Lemma dealt_column_Forall (P : Card → Prop) (allCards : list Card) (n idx : nat) :
  (∀ a b, P a → P (with_faceUp a b)) → Forall P allCards →
  Forall P (dealt_column allCards n idx).
Proof.
  intros Hflip Hall. apply Forall_lookup. intros i a Ha. unfold dealt_column in Ha.
  apply lookup_zip_with_Some in Ha as (row & card & -> & _ & Hcard).
  apply lookup_take_Some in Hcard as [Hcard _]. rewrite lookup_drop in Hcard.
  pose proof (Forall_lookup_1 _ _ _ _ Hall Hcard). case_decide; auto.
Qed.

Lemma suits_within_ok (state : GameState) :
  reachable state → suits_within (suits_of (difficulty state)) state.
Proof.
  assert (∀ (S : list Suit) a b, suit a ∈ S → suit (with_faceUp a b) ∈ S) as Hflip
    by done.
  induction 1 as [rnd d state Hnew | state src i tgt state' Hreach IH Hmove
                 | state state' Hreach IH Hdeal].
  - set (allCards := shuffle rnd (pack_of d)).
    assert (length allCards = 104%nat) as Hlen
      by (unfold allCards; by rewrite shuffle_length, pack_of_length).
    assert (Forall (fun a => suit a ∈ suits_of d) allCards) as Hall
      by apply shuffle_Forall, pack_of_suits.
    rewrite createGame_phases, (lay_out_spec _ _ Hlen) in Hnew.
    injection Hnew as <-. split; cbn [columns stock difficulty].
    + repeat (apply Forall_cons; split;
                [apply dealt_column_Forall; [apply Hflip | exact Hall]|]).
      constructor.
    + repeat (apply Forall_cons; split; [by apply Forall_take, Forall_drop|]).
      constructor.
  - destruct (moveCards_cases _ _ _ _ _ Hmove)
      as [[_ ->] | (srcCol & tgtCol & Hne & Hsrc & Htgt & Hcan & Hrun)]; [done|].
    rewrite removeCompleteRuns_spec in Hrun. injection Hrun as <-.
    destruct IH as [Hcols Hstock]. split; cbn [columns stock difficulty]; [|done].
    apply at_Some in Hsrc as [Hs0 Hsrc]. apply at_Some in Htgt as [Ht0 Htgt].
    pose proof (Forall_lookup_1 _ _ _ _ Hcols Hsrc) as Hs.
    pose proof (Forall_lookup_1 _ _ _ _ Hcols Htgt) as Ht.
    apply Forall_fmap. unfold set_at. rewrite !decide_True by done.
    apply Forall_insert; [apply Forall_insert|].
    + eapply Forall_impl; [exact Hcols|]. intros col Hcol.
      by apply settle_Forall.
    + apply settle_Forall; [apply Hflip|].
      apply reveal_Forall; [apply Hflip|]. by apply Forall_take.
    + apply settle_Forall; [apply Hflip|].
      apply Forall_app. split; [done | by apply Forall_drop].
  - destruct (dealFromStock_cases _ _ Hdeal) as (rest & pile & Hs & Hfull).
    destruct (reachable_ok _ Hreach) as (Hcols & Hpiles & _).
    rewrite Hs in Hpiles. apply Forall_app in Hpiles as [_ Hpile].
    rewrite Forall_singleton in Hpile.
    rewrite (dealFromStock_dealt state rest pile), removeCompleteRuns_spec in Hdeal
      by (done || lia).
    simpl in Hdeal. injection Hdeal as <-.
    destruct IH as [Hc Hstock]. rewrite Hs in Hstock.
    apply Forall_app in Hstock as [Hrest Hp]. rewrite Forall_singleton in Hp.
    split; cbn [columns stock difficulty]; [|done].
    apply Forall_fmap, Forall_lookup. intros k col Hcol.
    apply lookup_zip_with_Some in Hcol as (col0 & card & -> & Hcol0 & Hcard).
    apply settle_Forall; [apply Hflip|]. apply Forall_app. split.
    + by apply (Forall_lookup_1 _ _ _ _ Hc Hcol0).
    + apply Forall_singleton, Hflip. by apply (Forall_lookup_1 _ _ _ _ Hp Hcard).
Qed.

(** X18. A game keeps to its suits: in every state reachable from
    [createGame], every card of the columns and of the stock has one of the
    suits of the difficulty recorded in the state (spades alone at
    difficulty 1, spades and hearts at difficulty 2). *)
Theorem suits_stay (state : GameState) :
  reachable state →
  ∀ a, a ∈ table_cards state → suit a ∈ suits_of (difficulty state).
Proof.
  intros [Hcols Hstock]%suits_within_ok a Ha.
  assert (∀ piles : list (list Card),
            Forall (Forall (fun a => suit a ∈ suits_of (difficulty state))) piles →
            a ∈ concat piles → suit a ∈ suits_of (difficulty state)) as Hin.
  { intros piles Hall Hmem. apply list_elem_of_In, in_concat in Hmem as (pile & Hp & Hmem).
    apply list_elem_of_In in Hp, Hmem.
    by apply (proj1 (Forall_forall _ _) (proj1 (Forall_forall _ _) Hall pile Hp)). }
  unfold table_cards in Ha. apply elem_of_app in Ha as [Ha | Ha]; eauto.
Qed.

Lemma suits_stay_witness :
  ∃ state, createGame (fun i => (i + 2)%nat) D1 = Some state ∧
    ∀ a, a ∈ table_cards state → suit a = Spades.
Proof.
  destruct (createGame (fun i => (i + 2)%nat) D1) as [state|] eqn:Hnew.
  - exists state. split; [done|]. intros a Ha.
    assert (difficulty state = D1) as Hd.
    { vm_compute in Hnew. by injection Hnew as <-. }
    pose proof (suits_stay state (reach_new _ _ _ Hnew) a Ha) as Hs.
    rewrite Hd in Hs. simpl in Hs. by apply list_elem_of_singleton in Hs.
  - vm_compute in Hnew. discriminate Hnew.
Defined.
